(** * Sol-tg-bot: [telegrambot/tools/generate_key.py]

    A shallow embedding of [generate_encryption_key] and of the Python
    library functions it calls, followed by the properties of the key
    generator and of the [.env] patcher.

    Conventions of the model.
    - A file holds bytes, one of Rocq's 8-bit [ascii] codes each, and a
      Python [str] read from it is the list of the same codes: the locale's
      encoding is taken to keep the codes below 128 as they are (UTF-8,
      Latin-1, ASCII), so that the tests and replacements of the script,
      whose texts are ASCII, act on the bytes as they act on the decoded
      characters.  Which byte strings the encoding decodes is part of the
      environment.  A Python [bytes] value is a [list byte].
    - The platform is POSIX: [os.path] is [posixpath], [os.linesep] is a
      single line feed.
    - The interpreter's environment is a record [world]: the value of
      [__file__], the working directory, the file system (a finite map from
      paths to file contents), the byte strings the locale's encoding
      decodes, the bytes the operating system's random source will deliver,
      and the trace of observable actions.
    - A computation is a function [world -> result A * world]; an exception
      is the [Raise] result.  Only runs in which the operating system's own
      calls succeed are covered (no permission or device errors, no
      directory in the place of the file, no length beyond the memory). *)

From stdpp Require Import gmap strings list.
From Stdlib Require Import ZArith Lia.
From Stdlib.Strings Require Import Ascii Byte.

Local Open Scope Z_scope.

Abbreviation str := (list ascii).

(** A string literal, as a [str]. *)
Definition lit (s : string) : str := String.list_ascii_of_string s.

Definition LF : ascii := ascii_of_nat 10.
Definition CR : ascii := ascii_of_nat 13.

(** ** Python [str] operations *)

Module Str.

(** [sub in s] *)
Fixpoint contains (sub s : str) : bool :=
  if decide (sub `prefix_of` s) then true
  else match s with
       | [] => false
       | _ :: s' => contains sub s'
       end.

(** The scan of [s.replace(old, new)] for a non-empty [old]: occurrences are
    taken from the left and do not overlap.  [fuel] bounds the number of
    steps; [replace] below supplies enough of it. *)
Fixpoint replace_scan (fuel : nat) (old new s : str) : str :=
  match fuel with
  | O => s
  | S fuel' =>
      if decide (old `prefix_of` s)
      then new ++ replace_scan fuel' old new (drop (length old) s)
      else match s with
           | [] => []
           | c :: s' => c :: replace_scan fuel' old new s'
           end
  end.

(** [s.replace(old, new)].  With an empty [old], Python puts [new] before
    every character and at the end. *)
Definition replace (old new s : str) : str :=
  match old with
  | [] => new ++ flat_map (fun c => c :: new) s
  | _ :: _ => replace_scan (S (length s)) old new s
  end.

(** [s.count(c)] for a one-character [c]. *)
Fixpoint count (c : ascii) (s : str) : nat :=
  match s with
  | [] => 0%nat
  | x :: s' => if decide (x = c) then S (count c s') else count c s'
  end.

(** [s.rfind(c)] for a one-character [c]: the highest index, or [-1]. *)
Fixpoint rfind_from (c : ascii) (i : Z) (s : str) : Z :=
  match s with
  | [] => -1
  | x :: s' =>
      let r := rfind_from c (i + 1) s' in
      if 0 <=? r then r else if decide (x = c) then i else -1
  end.

Definition rfind (c : ascii) (s : str) : Z := rfind_from c 0 s.

(** [s[:i]] for [0 <= i]. *)
Definition slice_to (i : Z) (s : str) : str := take (Z.to_nat i) s.

Fixpoint lstrip (c : ascii) (s : str) : str :=
  match s with
  | [] => []
  | x :: s' => if decide (x = c) then lstrip c s' else s
  end.

(** [s.rstrip(c)] *)
Definition rstrip (c : ascii) (s : str) : str := rev (lstrip c (rev s)).

(** [s.split(sep)] for a one-character [sep]. *)
Fixpoint split (sep : ascii) (s : str) : list str :=
  match s with
  | [] => [[]]
  | c :: s' =>
      if decide (c = sep) then [] :: split sep s'
      else match split sep s' with
           | [] => [[c]]
           | w :: ws => (c :: w) :: ws
           end
  end.

(** [sep.join(parts)] *)
Fixpoint join (sep : str) (parts : list str) : str :=
  match parts with
  | [] => []
  | [p] => p
  | p :: ps => p ++ sep ++ join sep ps
  end.

(** What reading a file opened in text mode with the default [newline=None]
    returns: [\r\n] and a lone [\r] both become [\n]. *)
Fixpoint universal_newlines (raw : str) : str :=
  match raw with
  | [] => []
  | c :: raw' =>
      if decide (c = CR)
      then LF :: match raw' with
                 | [] => []
                 | d :: raw'' =>
                     if decide (d = LF) then universal_newlines raw''
                     else universal_newlines raw'
                 end
      else c :: universal_newlines raw'
  end.

End Str.

(** ** [base64.b64encode] and its inverse (RFC 4648, section 4) *)

Module Base64.

Definition alphabet : str :=
  lit "ABCDEFGHIJKLMNOPQRSTUVWXYZabcdefghijklmnopqrstuvwxyz0123456789+/".

Definition pad : ascii := "="%char.

Definition b64char (i : Z) : ascii := nth (Z.to_nat i) alphabet "A"%char.

Definition byte_val (b : byte) : Z := Z.of_N (Byte.to_N b).

(** The 6-bit group of the 24-bit number [n] that starts at bit [k]. *)
Definition sextet (n k : Z) : Z := (n / 2 ^ k) mod 64.

(** [base64.b64encode(bs).decode('utf-8')]: three bytes make a 24-bit group
    that is written as four characters; a last group of one or two bytes is
    filled with zero bits and padded with [=]. *)
Fixpoint b64encode (bs : list byte) : str :=
  match bs with
  | [] => []
  | [b0] =>
      let n := byte_val b0 * 65536 in
      [b64char (sextet n 18); b64char (sextet n 12); pad; pad]
  | [b0; b1] =>
      let n := byte_val b0 * 65536 + byte_val b1 * 256 in
      [b64char (sextet n 18); b64char (sextet n 12); b64char (sextet n 6); pad]
  | b0 :: b1 :: b2 :: rest =>
      let n := byte_val b0 * 65536 + byte_val b1 * 256 + byte_val b2 in
      [b64char (sextet n 18); b64char (sextet n 12);
       b64char (sextet n 6); b64char (sextet n 0)] ++ b64encode rest
  end.

Fixpoint index_from (c : ascii) (i : Z) (l : str) : option Z :=
  match l with
  | [] => None
  | x :: l' => if decide (x = c) then Some i else index_from c (i + 1) l'
  end.

(** The value of an alphabet character. *)
Definition b64index (c : ascii) : option Z := index_from c 0 alphabet.

Definition to_byte (n : Z) : byte :=
  match Byte.of_N (Z.to_N (n mod 256)) with
  | Some b => b
  | None => x00
  end.

(** The 24-bit number of four alphabet characters. *)
Definition group_val (a b c d : ascii) : option Z :=
  match b64index a, b64index b, b64index c, b64index d with
  | Some ia, Some ib, Some ic, Some id =>
      Some (ia * 262144 + ib * 4096 + ic * 64 + id)
  | _, _, _, _ => None
  end.

(** The last four characters: no padding, one [=] or two. *)
Definition decode_last (a b c d : ascii) : option (list byte) :=
  if decide (d = pad) then
    if decide (c = pad) then
      match group_val a b "A"%char "A"%char with
      | Some n => Some [to_byte (n / 65536)]
      | None => None
      end
    else
      match group_val a b c "A"%char with
      | Some n => Some [to_byte (n / 65536); to_byte (n / 256)]
      | None => None
      end
  else
    match group_val a b c d with
    | Some n => Some [to_byte (n / 65536); to_byte (n / 256); to_byte n]
    | None => None
    end.

(** Strict decoding of padded base64: the input is a sequence of groups of
    four characters, and only the last group may be padded. *)
Fixpoint b64decode (cs : str) : option (list byte) :=
  match cs with
  | [] => Some []
  | a :: b :: c :: d :: rest =>
      match rest with
      | [] => decode_last a b c d
      | _ :: _ =>
          match group_val a b c d, b64decode rest with
          | Some n, Some tl =>
              Some (to_byte (n / 65536) :: to_byte (n / 256) :: to_byte n :: tl)
          | _, _ => None
          end
      end
  | _ => None
  end.

End Base64.

(** ** [posixpath] *)

Module PosixPath.

Definition sep : ascii := "/"%char.

Definition startswith_sep (p : str) : bool :=
  match p with
  | c :: _ => bool_decide (c = sep)
  | [] => false
  end.

Definition endswith_sep (p : str) : bool :=
  match last p with
  | Some c => bool_decide (c = sep)
  | None => false
  end.

(** [os.path.join(a, b)] *)
Definition join (a b : str) : str :=
  if startswith_sep b then b
  else if bool_decide (a = []) || endswith_sep a then a ++ b
  else a ++ sep :: b.

(** [os.path.dirname(p)] *)
Definition dirname (p : str) : str :=
  let i := Str.rfind sep p + 1 in
  let head := Str.slice_to i p in
  if negb (bool_decide (head = [])) &&
     negb (bool_decide (head = replicate (length head) sep))
  then Str.rstrip sep head
  else head.

(** One turn of the loop of [normpath] over the components. *)
Definition normpath_step (initial_slashes : nat) (new_comps : list str)
    (comp : str) : list str :=
  if bool_decide (comp = []) || bool_decide (comp = lit ".") then new_comps
  else if negb (bool_decide (comp = lit ".."))
          || (bool_decide (initial_slashes = 0%nat) && bool_decide (new_comps = []))
          || bool_decide (last new_comps = Some (lit ".."))
  then new_comps ++ [comp]
  else removelast new_comps.

(** [os.path.normpath(path)] *)
Definition normpath (path : str) : str :=
  match path with
  | [] => lit "."
  | _ :: _ =>
      let initial_slashes :=
        match path with
        | c0 :: c1 :: c2 :: _ =>
            if bool_decide (c0 = sep) then
              if bool_decide (c1 = sep) && negb (bool_decide (c2 = sep))
              then 2%nat else 1%nat
            else 0%nat
        | [c0; c1] =>
            if bool_decide (c0 = sep) then
              if bool_decide (c1 = sep) then 2%nat else 1%nat
            else 0%nat
        | [c0] => if bool_decide (c0 = sep) then 1%nat else 0%nat
        | [] => 0%nat
        end in
      let comps :=
        fold_left (normpath_step initial_slashes) (Str.split sep path) [] in
      let joined := replicate initial_slashes sep ++ Str.join [sep] comps in
      match joined with
      | [] => lit "."
      | _ :: _ => joined
      end
  end.

(** [os.path.abspath(path)] in the working directory [cwd]. *)
Definition abspath (cwd path : str) : str :=
  normpath (if startswith_sep path then path else join cwd path).

End PosixPath.

(** ** The UTF-8 decoder, as far as it can fail *)

Module Utf8.

Definition code (c : ascii) : N := N_of_ascii c.

Definition between (lo hi : N) (c : ascii) : bool :=
  ((lo <=? code c) && (code c <=? hi))%N.

(** Whether the strict decoder accepts the bytes: the well-formed sequences
    of the Unicode standard, without overlong forms, surrogates and code
    points above 10FFFF. *)
Fixpoint valid (s : str) : bool :=
  match s with
  | [] => true
  | c0 :: s1 =>
      if between 0 127 c0 then valid s1
      else if between 194 223 c0 then
        match s1 with
        | c1 :: s2 => between 128 191 c1 && valid s2
        | _ => false
        end
      else if between 224 239 c0 then
        match s1 with
        | c1 :: c2 :: s3 =>
            between (if (code c0 =? 224)%N then 160 else 128)
                    (if (code c0 =? 237)%N then 159 else 191) c1
            && between 128 191 c2 && valid s3
        | _ => false
        end
      else if between 240 244 c0 then
        match s1 with
        | c1 :: c2 :: c3 :: s4 =>
            between (if (code c0 =? 240)%N then 144 else 128)
                    (if (code c0 =? 244)%N then 143 else 191) c1
            && between 128 191 c2 && between 128 191 c3 && valid s4
        | _ => false
        end
      else false
  end.

End Utf8.

(** ** The interpreter's environment *)

Inductive exn : Type :=
  | ValueError          (* [secrets.token_bytes] on a negative length *)
  | FileNotFoundError   (* [open(path, 'r')] on a missing file *)
  | UnicodeDecodeError. (* [read()] on bytes the encoding does not decode *)

Inductive result (A : Type) : Type :=
  | Ok (a : A)
  | Raise (e : exn).

Arguments Ok {A} a.
Arguments Raise {A} e.

(** What a run does to the outside, in order. *)
Inductive event : Type :=
  | EvPrint (line : str)               (* [print(line)] *)
  | EvExists (path : str)              (* [os.path.exists(path)] *)
  | EvRead (path : str)                (* [open(path, 'r')], [read()] *)
  | EvWrite (path : str) (text : str). (* [open(path, 'w')], [write(text)] *)

Record world : Type := World {
  script_file : str;        (* [__file__] *)
  cwd : str;                (* [os.getcwd()] *)
  fs : gmap str str;        (* the regular files and their contents *)
  decodes : str -> bool;    (* what the locale's encoding can decode *)
  urandom : nat -> byte;    (* the bytes of the OS random source, in order *)
  consumed : nat;           (* how many of them have been delivered *)
  trace : list event
}.

Definition M (A : Type) : Type := world -> result A * world.

Definition ret {A} (a : A) : M A := fun w => (Ok a, w).

Definition bind {A B} (c : M A) (k : A -> M B) : M B :=
  fun w =>
    match c w with
    | (Ok a, w') => k a w'
    | (Raise e, w') => (Raise e, w')
    end.

Notation "x <- c ;; k" := (bind c (fun x => k))
  (at level 62, c at next level, right associativity).
Notation "c ;;; k" := (bind c (fun _ => k))
  (at level 62, right associativity).

Definition log (e : event) (w : world) : world :=
  World (script_file w) (cwd w) (fs w) (decodes w) (urandom w) (consumed w)
        (trace w ++ [e]).

(** [secrets.token_bytes(nbytes)]: the next [nbytes] bytes of the random
    source; a negative count is refused. *)
Definition token_bytes (nbytes : Z) : M (list byte) :=
  fun w =>
    if nbytes <? 0 then (Raise ValueError, w)
    else
      let n := Z.to_nat nbytes in
      (Ok (map (urandom w) (seq (consumed w) n)),
       World (script_file w) (cwd w) (fs w) (decodes w) (urandom w)
             (consumed w + n)%nat (trace w)).

(** [print(line)] *)
Definition print (line : str) : M unit :=
  fun w => (Ok tt, log (EvPrint line) w).

(** [os.path.abspath(__file__)] *)
Definition abspath_of_script : M str :=
  fun w => (Ok (PosixPath.abspath (cwd w) (script_file w)), w).

(** [os.path.exists(path)] *)
Definition path_exists (path : str) : M bool :=
  fun w => (Ok (bool_decide (is_Some (fs w !! path))), log (EvExists path) w).

(** [with open(path, 'r') as file: file.read()]: the bytes are decoded in
    the locale's encoding, which can fail, and the line ends are
    translated. *)
Definition read_text (path : str) : M str :=
  fun w =>
    match fs w !! path with
    | Some raw =>
        if decodes w raw
        then (Ok (Str.universal_newlines raw), log (EvRead path) w)
        else (Raise UnicodeDecodeError, log (EvRead path) w)
    | None => (Raise FileNotFoundError, w)
    end.

(** [with open(path, 'w') as file: file.write(text)]; a line feed is written
    as it is. *)
Definition write_text (path text : str) : M unit :=
  fun w =>
    (Ok tt,
     log (EvWrite path text)
       (World (script_file w) (cwd w) (<[path := text]> (fs w)) (decodes w)
              (urandom w) (consumed w) (trace w))).

(** ** The script *)

Definition placeholder : str := lit "ENCRYPTION_KEY=replace_with_generated_key".
Definition key_prefix : str := lit "ENCRYPTION_KEY=".
Definition msg_generated : str := lit "Generated encryption key: ".
Definition msg_store : str :=
  lit "Store this key securely and add it to your .env file as ENCRYPTION_KEY".
Definition msg_updated : str :=
  lit "Updated .env file with the new encryption key".
Definition dot_env : str := lit ".env".

(** The path of line 21, from the absolute path of the script. *)
Definition env_path_of (script : str) : str :=
  PosixPath.join (PosixPath.dirname (PosixPath.dirname script)) dot_env.

Definition generate_encryption_key (length : Z) : M str :=
  key_bytes <- token_bytes length ;;
  let key_b64 := Base64.b64encode key_bytes in
  print (msg_generated ++ key_b64) ;;;
  print msg_store ;;;
  script <- abspath_of_script ;;
  let env_path := env_path_of script in
  found <- path_exists env_path ;;
  (if found : bool then
     env_content <- read_text env_path ;;
     if Str.contains placeholder env_content then
       let env_content :=
         Str.replace placeholder (key_prefix ++ key_b64) env_content in
       write_text env_path env_content ;;;
       print msg_updated
     else ret tt
   else ret tt) ;;;
  ret key_b64.

(** [if __name__ == "__main__": generate_encryption_key()] *)
Definition main : M str := generate_encryption_key 32.

(** ** Observations of a run *)

(** The path the script looks for, in the world [w]. *)
Definition env_path (w : world) : str :=
  env_path_of (PosixPath.abspath (cwd w) (script_file w)).

(** The bytes a call with [length] receives in [w]. *)
Definition drawn (length : Z) (w : world) : list byte :=
  map (urandom w) (seq (consumed w) (Z.to_nat length)).

(** The key a call with [length] makes in [w]. *)
Definition key_of (length : Z) (w : world) : str :=
  Base64.b64encode (drawn length w).

Definition printed (t : list event) : list str :=
  flat_map (fun e => match e with EvPrint l => [l] | _ => [] end) t.

Definition written (t : list event) : list (str * str) :=
  flat_map (fun e => match e with EvWrite p c => [(p, c)] | _ => [] end) t.


(** The events a run from [w] to [w'] adds to the trace. *)
Definition new_events (w w' : world) : list event :=
  drop (length (trace w)) (trace w').

(** The result and the final world of a call. *)
Definition returned (length : Z) (w : world) : result str :=
  fst (generate_encryption_key length w).

Definition final (length : Z) (w : world) : world :=
  snd (generate_encryption_key length w).

(** The world [w] after a call that drew [length] bytes, left the files
    [files] and added the events [evs]. *)
Definition after (w : world) (length : Z) (files : gmap str str)
    (evs : list event) : world :=
  World (script_file w) (cwd w) files (decodes w) (urandom w)
        (consumed w + Z.to_nat length)%nat (trace w ++ evs).

(** The text the patcher writes over a file that holds [raw]. *)
Definition patched_text (key raw : str) : str :=
  Str.replace placeholder (key_prefix ++ key) (Str.universal_newlines raw).

(** The two lines every successful call prints first. *)
Definition key_prints (length : Z) (w : world) : list event :=
  [EvPrint (msg_generated ++ key_of length w); EvPrint msg_store].

(** What follows [ENCRYPTION_KEY=] in the placeholder. *)
Definition placeholder_value : str := lit "replace_with_generated_key".

(** A key that ends in padding and has no underscore; every key of a length
    that is not a multiple of three is one ([b64encode_padded_key]). *)
Definition padded_key (key : str) : Prop :=
  ("_"%char ∉ key) /\ last key = Some Base64.pad.

(** No occurrence of the placeholder in [out ++ s] starts inside [out]: the
    invariant of the scan, with [out] the text already produced and [s] the
    text still to be read. *)
Definition no_early (out s : str) : Prop :=
  forall a b, out = a ++ b -> b <> [] -> ~ placeholder `prefix_of` b ++ s.

(** A path in normal form: [/c1/c2/.../cn]. *)
Definition render (comps : list str) : str :=
  flat_map (fun c => PosixPath.sep :: c) comps.

(** A file or directory name: not empty and without a separator. *)
Definition is_name (c : str) : Prop := c <> [] /\ PosixPath.sep ∉ c.

(** ** Test worlds *)

Definition test_script : str := lit "/srv/bot/tools/generate_key.py".
Definition test_env_path : str := lit "/srv/bot/.env".

Definition test_world (files : gmap str str) (rnd : nat -> byte) : world :=
  World test_script (lit "/srv/bot") files Utf8.valid rnd 0 [].

Definition zero_source : nat -> byte := fun _ => x00.

(** A random source whose first three bytes encode to [repl]. *)
Definition repl_source : nat -> byte :=
  fun i => match i with
           | O => xad
           | S O => xea
           | S (S O) => x65
           | _ => x00
           end.

(** A [.env] file with the placeholder on its second line. *)
Definition env_fresh : str :=
  lit "BOT_TOKEN=123:abc" ++ [LF] ++ placeholder ++ [LF].

(** A [.env] file whose key was set before. *)
Definition env_set : str :=
  lit "BOT_TOKEN=123:abc" ++ [LF] ++ lit "ENCRYPTION_KEY=c2VjcmV0" ++ [LF].

(** A [.env] file in which the placeholder is followed by the end of its own
    value. *)
Definition env_doubled : str := placeholder ++ lit "ace_with_generated_key".

Definition world_fresh : world :=
  test_world {[ test_env_path := env_fresh ]} zero_source.

Definition world_set : world :=
  test_world {[ test_env_path := env_set ]} zero_source.

Definition world_bare : world := test_world ∅ zero_source.

Definition world_doubled : world :=
  test_world {[ test_env_path := env_doubled ]} repl_source.

(** ** Further notions for the properties of the script *)

(** Whether the [.env] file, if there is one, can be decoded. *)
Definition env_decodable (w : world) : bool :=
  match fs w !! env_path w with
  | Some raw => decodes w raw
  | None => true
  end.


(** [d] is the directory part of the path [p]: [p] is [d], separators and a
    last component [t].  A [d] of separators only (or empty) is followed by
    [t] at once; any other [d] ends in a name and is followed by at least
    one separator. *)
Definition dir_of (p d : str) : Prop :=
  exists (k : nat) (t : str),
    p = d ++ replicate k PosixPath.sep ++ t /\
    (PosixPath.sep ∉ t) /\
    ((d = replicate (length d) PosixPath.sep /\ k = 0%nat)
     \/ (d <> [] /\ last d <> Some PosixPath.sep /\ (1 <= k)%nat)).

(** A [.env] file with a byte that is not UTF-8 before the placeholder. *)
Definition env_latin1 : str :=
  lit "OWNER=Jos" ++ [ascii_of_nat 233; LF] ++ placeholder ++ [LF].

Definition world_latin1 : world :=
  test_world {[ test_env_path := env_latin1 ]} zero_source.

(** A name that [normpath] keeps: not [.] and not [..]. *)
Definition is_plain_name (c : str) : Prop :=
  is_name c /\ c <> lit "." /\ c <> lit "..".

(** A relative path [c1/c2/.../cn]. *)
Definition render_relative (comps : list str) : str :=
  Str.join [PosixPath.sep] comps.

(** The file system actions of a trace, in order. *)
Definition file_events (t : list event) : list event :=
  flat_map (fun e => match e with EvPrint _ => [] | _ => [e] end) t.

(** A second file of the bot, next to [.env]. *)
Definition test_config_path : str := lit "/srv/bot/config.py".

Definition world_two_files : world :=
  test_world (<[ test_config_path := lit "DEBUG = False" ]>
                {[ test_env_path := env_fresh ]}) zero_source.

(** The script started as [python tools/generate_key.py] in [/srv/bot] by an
    interpreter that leaves [__file__] relative. *)
Definition world_relative : world :=
  World (lit "tools/generate_key.py") (lit "/srv/bot")
        {[ test_env_path := env_fresh ]} Utf8.valid zero_source 0 [].

Ltac run_script :=
  cbv beta iota zeta delta
    [generate_encryption_key bind token_bytes print abspath_of_script
     path_exists read_text write_text ret log after key_prints];
  cbn [script_file cwd fs decodes urandom consumed trace].

(** Equations between a 24-bit number and its four 6-bit groups. *)
Ltac sextets :=
  unfold Base64.sextet;
  change (2 ^ 18) with 262144; change (2 ^ 12) with 4096;
  change (2 ^ 6) with 64; change (2 ^ 0) with 1;
  Z.div_mod_to_equations; lia.

(** Membership in a literal, by evaluation. *)
Ltac by_eval := apply (bool_decide_unpack _); vm_compute; exact I.

(** * Properties *)

(** ** The four runs of the script *)

Section Runs.

Variables (L : Z) (w : world).

Lemma run_negative :
  L < 0 -> generate_encryption_key L w = (Raise ValueError, w).
Proof.
  intros H. run_script.
  destruct (Z.ltb_spec L 0); [reflexivity | lia].
Qed.

Lemma run_absent :
  0 <= L -> fs w !! env_path w = None ->
  generate_encryption_key L w =
    (Ok (key_of L w), after w L (fs w) (key_prints L w ++ [EvExists (env_path w)])).
Proof.
  intros HL Hfs.
  unfold key_of, drawn. run_script.
  destruct (Z.ltb_spec L 0); [lia |]. run_script.
  change (env_path_of (PosixPath.abspath (cwd w) (script_file w)))
    with (env_path w).
  rewrite Hfs. rewrite bool_decide_eq_false_2 by (intros [? ?]; discriminate).
  run_script. rewrite <- !app_assoc. reflexivity.
Qed.

Lemma run_undecodable raw :
  0 <= L -> fs w !! env_path w = Some raw -> decodes w raw = false ->
  generate_encryption_key L w =
    (Raise UnicodeDecodeError,
     after w L (fs w)
       (key_prints L w ++ [EvExists (env_path w); EvRead (env_path w)])).
Proof.
  intros HL Hfs Hd.
  unfold key_of, drawn. run_script.
  destruct (Z.ltb_spec L 0); [lia |]. run_script.
  change (env_path_of (PosixPath.abspath (cwd w) (script_file w)))
    with (env_path w).
  rewrite Hfs. rewrite bool_decide_eq_true_2 by eauto.
  run_script. rewrite Hfs. cbn [decodes]. rewrite Hd. run_script.
  rewrite <- !app_assoc. reflexivity.
Qed.

Lemma run_unpatched raw :
  0 <= L -> fs w !! env_path w = Some raw -> decodes w raw = true ->
  Str.contains placeholder (Str.universal_newlines raw) = false ->
  generate_encryption_key L w =
    (Ok (key_of L w),
     after w L (fs w)
       (key_prints L w ++ [EvExists (env_path w); EvRead (env_path w)])).
Proof.
  intros HL Hfs Hd Hc.
  unfold key_of, drawn. run_script.
  destruct (Z.ltb_spec L 0); [lia |]. run_script.
  change (env_path_of (PosixPath.abspath (cwd w) (script_file w)))
    with (env_path w).
  rewrite Hfs. rewrite bool_decide_eq_true_2 by eauto.
  run_script. rewrite Hfs. cbn [decodes]. rewrite Hd. run_script.
  rewrite Hc. run_script.
  rewrite <- !app_assoc. reflexivity.
Qed.

Lemma run_patched raw :
  0 <= L -> fs w !! env_path w = Some raw -> decodes w raw = true ->
  Str.contains placeholder (Str.universal_newlines raw) = true ->
  generate_encryption_key L w =
    (Ok (key_of L w),
     after w L (<[env_path w := patched_text (key_of L w) raw]> (fs w))
       (key_prints L w ++
        [EvExists (env_path w); EvRead (env_path w);
         EvWrite (env_path w) (patched_text (key_of L w) raw);
         EvPrint msg_updated])).
Proof.
  intros HL Hfs Hd Hc.
  unfold key_of, drawn. run_script.
  destruct (Z.ltb_spec L 0); [lia |]. run_script.
  change (env_path_of (PosixPath.abspath (cwd w) (script_file w)))
    with (env_path w).
  rewrite Hfs. rewrite bool_decide_eq_true_2 by eauto.
  run_script. rewrite Hfs. cbn [decodes]. rewrite Hd. run_script.
  rewrite Hc. run_script.
  rewrite <- !app_assoc. reflexivity.
Qed.

Lemma new_events_after files evs : new_events w (after w L files evs) = evs.
Proof. unfold new_events, after; simpl. apply drop_app_length. Qed.

End Runs.

(** ** Substring test and replacement *)

Section StrFacts.

Implicit Types sub old new s : str.

Lemma contains_occurs sub s :
  Str.contains sub s = true <-> exists a b, s = a ++ sub ++ b.
Proof.
  induction s as [|c s IH]; simpl.
  - destruct (decide (sub `prefix_of` [])) as [Hp|Hp].
    + split; [intros _|reflexivity].
      apply prefix_nil_inv in Hp as ->. by exists [], [].
    + split; [discriminate|]. intros (a & b & Hs). exfalso. apply Hp.
      destruct a; [|discriminate]. simpl in Hs. rewrite Hs. by exists b.
  - destruct (decide (sub `prefix_of` c :: s)) as [[k Hk]|Hp].
    + split; [intros _|reflexivity]. by exists [], k.
    + rewrite IH. split.
      * intros (a & b & ->). by exists (c :: a), b.
      * intros (a & b & Hs). destruct a as [|x a].
        -- exfalso. apply Hp. simpl in Hs. rewrite Hs. by exists b.
        -- injection Hs as _ ->. by exists a, b.
Qed.

Lemma contains_absent sub s :
  Str.contains sub s = false <-> forall a b, s <> a ++ sub ++ b.
Proof.
  rewrite <- not_true_iff_false, contains_occurs. split.
  - intros H a b Hs. apply H. by exists a, b.
  - intros H (a & b & Hs). by apply (H a b).
Qed.

(** Any fuel above the length of the text gives the same scan. *)
Lemma replace_scan_fuel old new fuel : forall fuel' s,
  old <> [] -> (length s < fuel)%nat -> (length s < fuel')%nat ->
  Str.replace_scan fuel old new s = Str.replace_scan fuel' old new s.
Proof.
  induction fuel as [|fuel IH]; intros fuel' s Hold H1 H2; [lia|].
  destruct fuel' as [|fuel']; [lia|]. simpl.
  destruct (decide (old `prefix_of` s)) as [Hp|Hp].
  - f_equal. apply prefix_length in Hp.
    destruct old as [|o old]; [done|]. simpl in Hp.
    apply IH; [done| |]; rewrite length_drop; simpl; lia.
  - destruct s as [|c s]; [done|]. f_equal.
    apply IH; [done| |]; simpl in *; lia.
Qed.

Lemma replace_scan_S fuel old new s :
  Str.replace_scan (S fuel) old new s =
    if decide (old `prefix_of` s)
    then new ++ Str.replace_scan fuel old new (drop (length old) s)
    else match s with
         | [] => []
         | c :: s' => c :: Str.replace_scan fuel old new s'
         end.
Proof. reflexivity. Qed.

Lemma replace_nil old new : old <> [] -> Str.replace old new [] = [].
Proof.
  intros Hold. destruct old as [|o old]; [done|]. unfold Str.replace. simpl.
  destruct (decide (o :: old `prefix_of` [])) as [Hp|]; [|done].
  by apply prefix_nil_not in Hp.
Qed.

(** An occurrence at the head is replaced, and the scan goes on behind it. *)
Lemma replace_match old new s :
  old <> [] ->
  Str.replace old new (old ++ s) = new ++ Str.replace old new s.
Proof.
  intros Hold. destruct old as [|o old]; [done|].
  unfold Str.replace. rewrite (replace_scan_S (length ((o :: old) ++ s))).
  destruct (decide (o :: old `prefix_of` (o :: old) ++ s)) as [_|Hp].
  - f_equal. rewrite drop_app_length.
    apply replace_scan_fuel; [done| |lia].
    rewrite length_app. simpl. lia.
  - exfalso. apply Hp. by exists s.
Qed.

(** Without an occurrence at the head, the first character is kept. *)
Lemma replace_skip old new c s :
  old <> [] -> ~ old `prefix_of` c :: s ->
  Str.replace old new (c :: s) = c :: Str.replace old new s.
Proof.
  intros Hold Hp. destruct old as [|o old]; [done|].
  unfold Str.replace. rewrite (replace_scan_S (length (c :: s))).
  destruct (decide (o :: old `prefix_of` c :: s)); [done|]. reflexivity.
Qed.

(** A text without an occurrence is returned as it is. *)
Lemma replace_absent old new s :
  old <> [] -> Str.contains old s = false -> Str.replace old new s = s.
Proof.
  intros Hold. induction s as [|c s IH]; intros Hc.
  - by apply replace_nil.
  - simpl in Hc. destruct (decide (old `prefix_of` c :: s)); [done|].
    rewrite replace_skip by done. f_equal. by apply IH.
Qed.

(** Universal newlines keep the occurrences of a text that has no line
    break in it. *)
Lemma universal_newlines_prefix sub : forall raw,
  sub <> [] -> CR ∉ sub -> LF ∉ sub ->
  sub `prefix_of` Str.universal_newlines raw <-> sub `prefix_of` raw.
Proof.
  induction sub as [|x sub IH]; intros raw Hne Hcr Hlf; [done|].
  apply not_elem_of_cons in Hcr as [Hx1 Hcr].
  apply not_elem_of_cons in Hlf as [Hx2 Hlf].
  destruct raw as [|c raw]; [done|]. simpl.
  destruct (decide (c = CR)) as [->|Hc].
  - split; intros Hp; apply prefix_cons_inv_1 in Hp; congruence.
  - split; intros Hp.
    + pose proof (prefix_cons_inv_1 _ _ _ _ Hp) as ->.
      apply prefix_cons. apply prefix_cons_inv_2 in Hp.
      destruct sub as [|y sub]; [apply prefix_nil|]. by apply IH.
    + pose proof (prefix_cons_inv_1 _ _ _ _ Hp) as ->.
      apply prefix_cons. apply prefix_cons_inv_2 in Hp.
      destruct sub as [|y sub]; [apply prefix_nil|]. by apply IH.
Qed.

Lemma contains_cons_ne sub x c s :
  x <> c -> Str.contains (x :: sub) (c :: s) = Str.contains (x :: sub) s.
Proof.
  intros Hx. simpl.
  destruct (decide (x :: sub `prefix_of` c :: s)) as [Hp|]; [|done].
  by apply prefix_cons_inv_1 in Hp.
Qed.

Lemma universal_newlines_contains sub raw :
  sub <> [] -> CR ∉ sub -> LF ∉ sub ->
  Str.contains sub (Str.universal_newlines raw) = Str.contains sub raw.
Proof.
  intros Hne Hcr Hlf.
  assert (forall n raw, (length raw <= n)%nat ->
    Str.contains sub (Str.universal_newlines raw) = Str.contains sub raw)
    as Hall; [|by apply (Hall (length raw))].
  clear raw. induction n as [|n IH]; intros raw Hlen.
  - destruct raw; [done|simpl in Hlen; lia].
  - destruct raw as [|c raw]; [done|]. simpl in Hlen.
    destruct sub as [|x sub]; [done|].
    pose proof Hcr as Hcr'. pose proof Hlf as Hlf'.
    apply not_elem_of_cons in Hcr' as [Hx1 _].
    apply not_elem_of_cons in Hlf' as [Hx2 _].
    cbn [Str.universal_newlines].
    destruct (decide (c = CR)) as [->|Hc].
    + rewrite !contains_cons_ne by done.
      destruct raw as [|d raw]; [done|].
      destruct (decide (d = LF)) as [->|Hd].
      * rewrite contains_cons_ne by done. apply IH. simpl in Hlen. lia.
      * apply IH. lia.
    + cbn [Str.contains].
      destruct (decide (x :: sub `prefix_of` c :: Str.universal_newlines raw))
        as [Hp|Hp];
      destruct (decide (x :: sub `prefix_of` c :: raw)) as [Hq|Hq].
      * done.
      * exfalso. apply Hq.
        apply (universal_newlines_prefix (x :: sub) (c :: raw)); [done..|].
        simpl. by destruct (decide (c = CR)).
      * exfalso. apply Hp.
        apply (universal_newlines_prefix (x :: sub) (c :: raw)) in Hq;
          [|done..].
        simpl in Hq. by destruct (decide (c = CR)).
      * apply IH. lia.
Qed.

(** A text without a carriage return is read as it is. *)
Lemma universal_newlines_id raw :
  CR ∉ raw -> Str.universal_newlines raw = raw.
Proof.
  induction raw as [|c raw IH]; intros Hcr; [done|].
  apply not_elem_of_cons in Hcr as [Hc Hcr]. simpl.
  destruct (decide (c = CR)); [done|]. f_equal. by apply IH.
Qed.

End StrFacts.

(** ** The placeholder does not come back *)

Section Placeholder.

Implicit Types key out s : str.

Lemma placeholder_split : placeholder = key_prefix ++ placeholder_value.
Proof. reflexivity. Qed.

Lemma placeholder_nonempty : placeholder <> [].
Proof. discriminate. Qed.

(** The only [=] of the placeholder is its fifteenth character. *)
Lemma placeholder_pad_index (i : nat) :
  placeholder !! i = Some Base64.pad -> i = 14%nat.
Proof.
  intros H. pose proof (lookup_lt_Some _ _ _ H) as Hi.
  change (length placeholder) with 41%nat in Hi.
  do 41 (destruct i as [|i]; [vm_compute in H; first [discriminate | reflexivity]|]).
  lia.
Qed.

Lemma key_prefix_pad : key_prefix !! 14%nat = Some Base64.pad.
Proof. reflexivity. Qed.

(** A prefix of [u ++ c :: v] without [c] is a prefix of [u]. *)
Lemma prefix_before (c : ascii) (b u v : str) :
  b `prefix_of` u ++ c :: v -> c ∉ b -> b `prefix_of` u.
Proof.
  intros Hb Hc.
  destruct (prefix_weak_total b u (u ++ c :: v)) as [H|[k ->]];
    [done|by apply prefix_app_r|done|].
  apply prefix_app_inv in Hb. destruct k as [|x k].
  - rewrite app_nil_r. done.
  - apply prefix_cons_inv_1 in Hb as ->. exfalso. apply Hc.
    apply elem_of_app. right. apply elem_of_cons. by left.
Qed.

(** The placeholder does not start inside the new [ENCRYPTION_KEY=]. *)
Lemma not_inside_key_prefix (l m rest : str) :
  key_prefix = l ++ m -> l <> [] -> m <> [] ->
  ~ placeholder `prefix_of` m ++ rest.
Proof.
  intros Hkp Hl Hm Hp.
  assert (length l + length m = 15)%nat as Hlen.
  { rewrite <- length_app, <- Hkp. reflexivity. }
  assert (length l <> 0%nat) by (destruct l; simpl; [done|lia]).
  assert (length m <> 0%nat) by (destruct m; simpl; [done|lia]).
  assert (m !! (length m - 1)%nat = Some Base64.pad) as Hlast.
  { pose proof key_prefix_pad as Hk. rewrite Hkp in Hk.
    rewrite lookup_app_r in Hk by lia.
    replace (14 - length l)%nat with (length m - 1)%nat in Hk by lia. done. }
  assert (placeholder !! (length m - 1)%nat = Some Base64.pad) as Hpl.
  { rewrite (prefix_lookup_lt placeholder (m ++ rest)); [| |done].
    - rewrite lookup_app_l; [done|lia].
    - change (length placeholder) with 41%nat. lia. }
  apply placeholder_pad_index in Hpl. lia.
Qed.

(** The placeholder does not start inside the key, nor at its first
    character. *)
Lemma not_inside_key key (m b rest : str) :
  padded_key key -> key = m ++ b -> b <> [] ->
  ~ placeholder `prefix_of` b ++ rest.
Proof.
  intros [Hus Hlast] -> Hb Hp.
  assert (last b = Some Base64.pad) as Hlb.
  { rewrite last_app in Hlast. destruct (last b) eqn:E; [done|].
    by apply last_None in E. }
  apply not_elem_of_app in Hus as [_ Hus].
  destruct (prefix_weak_total placeholder b (b ++ rest)) as [H|H];
    [done|by apply prefix_app_r| |].
  - apply Hus. apply (elem_of_prefix placeholder); [by_eval|done].
  - change placeholder
      with (lit "ENCRYPTION" ++ "_"%char :: lit "KEY=replace_with_generated_key")
      in H.
    apply prefix_before in H; [|done].
    apply last_Some_elem_of in Hlb.
    apply (elem_of_prefix _ _ _ Hlb) in H.
    revert H. by_eval.
Qed.

(** The placeholder does not start at the new [ENCRYPTION_KEY=]. *)
Lemma not_at_key_prefix key rest :
  padded_key key -> ~ placeholder `prefix_of` key_prefix ++ key ++ rest.
Proof.
  intros [Hus Hlast] Hp. rewrite placeholder_split in Hp.
  apply prefix_app_inv in Hp.
  destruct (prefix_weak_total placeholder_value key (key ++ rest)) as [H|H];
    [done|by apply prefix_app_r| |].
  - apply Hus. apply (elem_of_prefix placeholder_value); [by_eval|done].
  - change placeholder_value
      with (lit "replace" ++ "_"%char :: lit "with_generated_key") in H.
    apply prefix_before in H; [|done].
    apply last_Some_elem_of in Hlast.
    apply (elem_of_prefix _ _ _ Hlast) in H.
    revert H. by_eval.
Qed.

(** An occurrence that starts before the replaced one and did not exist
    before the replacement does not exist after it. *)
Lemma not_before_key_prefix key (l rest : str) :
  l <> [] ->
  ~ placeholder `prefix_of` l ++ placeholder ++ rest ->
  ~ placeholder `prefix_of` l ++ key_prefix ++ key ++ rest.
Proof.
  intros Hl Hold Hnew.
  destruct (prefix_weak_total placeholder (l ++ key_prefix)
              (l ++ key_prefix ++ key ++ rest)) as [H|[r Hr]]; [done| | |].
  - exists (key ++ rest). by rewrite <- app_assoc.
  - apply Hold. rewrite placeholder_split at 2.
    rewrite <- !app_assoc.
    replace (l ++ key_prefix ++ placeholder_value ++ rest)
      with ((l ++ key_prefix) ++ placeholder_value ++ rest)
      by (by rewrite <- app_assoc).
    by apply prefix_app_r.
  - assert (placeholder !! (length l + 14)%nat = Some Base64.pad) as Hpl.
    { rewrite Hr, <- !app_assoc. rewrite lookup_app_r by lia.
      replace (length l + 14 - length l)%nat with 14%nat by lia.
      rewrite lookup_app_l; [apply key_prefix_pad|].
      change (length key_prefix) with 15%nat. lia. }
    apply placeholder_pad_index in Hpl.
    destruct l; simpl in Hpl; [done|lia].
Qed.

Lemma no_early_nil s : no_early [] s.
Proof. intros a b Hab Hb. symmetry in Hab. apply app_eq_nil in Hab as [_ ->]. done. Qed.

(** The scan keeps a character that does not start an occurrence. *)
Lemma no_early_skip out c s :
  no_early out (c :: s) -> ~ placeholder `prefix_of` c :: s ->
  no_early (out ++ [c]) s.
Proof.
  intros Hinv Hc a b Hab Hb.
  apply app_eq_inv in Hab as [(k & -> & ->)|(k & -> & Hk)].
  - destruct k as [|x k]; [done|].
    rewrite <- app_assoc. by apply (Hinv a (x :: k)).
  - destruct k as [|x k].
    + simpl in Hk. by subst b.
    + destruct k; destruct b; done.
Qed.

(** The scan replaces an occurrence by [ENCRYPTION_KEY=] and the key. *)
Lemma no_early_match key out s :
  padded_key key -> no_early out (placeholder ++ s) ->
  no_early (out ++ key_prefix ++ key) s.
Proof.
  intros Hkey Hinv a b Hab Hb.
  apply app_eq_inv in Hab as [(k & -> & Hk)|(k & -> & Hk)].
  - (* the occurrence starts in [out] or at its end *)
    subst b. destruct k as [|x k].
    + rewrite app_nil_l, <- app_assoc. by apply not_at_key_prefix.
    + rewrite <- !app_assoc.
      apply not_before_key_prefix; [done|].
      by apply (Hinv a (x :: k)).
  - destruct k as [|x k].
    + rewrite app_nil_l in Hk. subst b. rewrite <- app_assoc.
      by apply not_at_key_prefix.
    + (* the occurrence starts inside the replacement *)
      symmetry in Hk.
      apply app_eq_inv in Hk as [(m & _ & Hm)|(m & Hkp & ->)].
      * by apply (not_inside_key key m b).
      * destruct m as [|y m].
        -- rewrite app_nil_l. apply (not_inside_key key [] key); [done|done|].
           intros ->. destruct Hkey as [_ Hl]. done.
        -- rewrite <- app_assoc.
           by apply (not_inside_key_prefix (x :: k) (y :: m)).
Qed.

Lemma replace_no_early key : forall (n : nat) s out,
  padded_key key -> (length s <= n)%nat -> no_early out s ->
  Str.contains placeholder
    (out ++ Str.replace placeholder (key_prefix ++ key) s) = false.
Proof.
  induction n as [|n IH]; intros s out Hkey Hlen Hinv.
  - destruct s; [|simpl in Hlen; lia].
    rewrite replace_nil by apply placeholder_nonempty.
    apply contains_absent. intros a b Hab. rewrite app_nil_r in Hab.
    apply (Hinv a (placeholder ++ b)); [done|discriminate|].
    rewrite app_nil_r. by apply prefix_app_r.
  - destruct (decide (placeholder `prefix_of` s)) as [[k ->]|Hp].
    + rewrite replace_match by apply placeholder_nonempty.
      rewrite app_assoc. apply IH; [done| |].
      * rewrite length_app in Hlen. change (length placeholder) with 41%nat in Hlen.
        lia.
      * by apply no_early_match.
    + destruct s as [|c s].
      * apply (IH [] out); [done|simpl; lia|done].
      * rewrite replace_skip by (done || apply placeholder_nonempty).
        replace (out ++ c :: Str.replace placeholder (key_prefix ++ key) s)
          with ((out ++ [c]) ++ Str.replace placeholder (key_prefix ++ key) s)
          by (by rewrite <- app_assoc).
        apply IH; [done|simpl in Hlen; lia|by apply no_early_skip].
Qed.

(** After the replacement by a padded key the placeholder is gone. *)
Lemma replace_removes_placeholder key s :
  padded_key key ->
  Str.contains placeholder
    (Str.replace placeholder (key_prefix ++ key) s) = false.
Proof.
  intros Hkey.
  apply (replace_no_early key (length s) s []); [done|lia|apply no_early_nil].
Qed.

End Placeholder.

(** ** Base64 *)

Section Base64Facts.

Import Base64.

Lemma list_ind3 {A} (P : list A -> Prop) :
  P [] -> (forall a, P [a]) -> (forall a b, P [a; b]) ->
  (forall a b c l, P l -> P (a :: b :: c :: l)) ->
  forall l, P l.
Proof.
  intros H0 H1 H2 H3 l.
  assert (P l /\ (forall a, P (a :: l)) /\ (forall a b, P (a :: b :: l)))
    as [H _]; [|exact H].
  induction l as [|x l (IH0 & IH1 & IH2)]; auto.
Qed.

Lemma byte_val_range b : 0 <= byte_val b < 256.
Proof.
  unfold byte_val. pose proof (Byte.to_N_bounded b). lia.
Qed.

Lemma to_byte_val n b : n mod 256 = byte_val b -> to_byte n = b.
Proof.
  intros H. unfold to_byte. rewrite H. unfold byte_val.
  rewrite N2Z.id, Byte.of_to_N. reflexivity.
Qed.

Lemma sextet_range n k : 0 <= sextet n k < 64.
Proof. unfold sextet. apply Z.mod_pos_bound. lia. Qed.

(** The value of the [i]-th character of the alphabet is [i]. *)
Lemma b64index_b64char i : 0 <= i < 64 -> b64index (b64char i) = Some i.
Proof.
  intros Hi. rewrite <- (Z2Nat.id i) by lia.
  assert (Z.to_nat i < 64)%nat as Hn by lia.
  generalize dependent (Z.to_nat i). clear i Hi. intros n Hn.
  do 64 (destruct n as [|n]; [reflexivity|]). lia.
Qed.

Lemma b64char_alphabet i : b64char i ∈ alphabet.
Proof.
  unfold b64char. apply list_elem_of_In.
  destruct (nth_in_or_default (Z.to_nat i) alphabet "A"%char) as [H| ->];
    [done|].
  apply list_elem_of_In. by_eval.
Qed.

Lemma b64char_not_pad i : b64char i <> pad.
Proof.
  intros H. pose proof (b64char_alphabet i) as Hin. rewrite H in Hin.
  revert Hin. by_eval.
Qed.

Lemma b64char_not_underscore i : b64char i <> "_"%char.
Proof.
  intros H. pose proof (b64char_alphabet i) as Hin. rewrite H in Hin.
  revert Hin. by_eval.
Qed.

Lemma group_val_chars i j k l :
  0 <= i < 64 -> 0 <= j < 64 -> 0 <= k < 64 -> 0 <= l < 64 ->
  group_val (b64char i) (b64char j) (b64char k) (b64char l)
  = Some (i * 262144 + j * 4096 + k * 64 + l).
Proof.
  intros. unfold group_val. by rewrite !b64index_b64char.
Qed.

Lemma group_val_sextets n :
  group_val (b64char (sextet n 18)) (b64char (sextet n 12))
            (b64char (sextet n 6)) (b64char (sextet n 0))
  = Some (sextet n 18 * 262144 + sextet n 12 * 4096 + sextet n 6 * 64
          + sextet n 0).
Proof. apply group_val_chars; apply sextet_range. Qed.

(** Three bytes come back from their four characters. *)
Lemma decode_three b0 b1 b2 :
  let n := byte_val b0 * 65536 + byte_val b1 * 256 + byte_val b2 in
  let m := sextet n 18 * 262144 + sextet n 12 * 4096 + sextet n 6 * 64
           + sextet n 0 in
  to_byte (m / 65536) = b0 /\ to_byte (m / 256) = b1 /\ to_byte m = b2.
Proof.
  intros n m.
  pose proof (byte_val_range b0). pose proof (byte_val_range b1).
  pose proof (byte_val_range b2).
  assert (m = n) as -> by (subst m n; sextets).
  repeat split; apply to_byte_val; subst n;
    Z.div_mod_to_equations; lia.
Qed.

Lemma decode_two b0 b1 :
  let n := byte_val b0 * 65536 + byte_val b1 * 256 in
  let m := sextet n 18 * 262144 + sextet n 12 * 4096 + sextet n 6 * 64 + 0 in
  to_byte (m / 65536) = b0 /\ to_byte (m / 256) = b1.
Proof.
  intros n m.
  pose proof (byte_val_range b0). pose proof (byte_val_range b1).
  assert (m = n) as -> by (subst m n; sextets).
  repeat split; apply to_byte_val; subst n;
    Z.div_mod_to_equations; lia.
Qed.

Lemma decode_one b0 :
  let n := byte_val b0 * 65536 in
  let m := sextet n 18 * 262144 + sextet n 12 * 4096 + 0 * 64 + 0 in
  to_byte (m / 65536) = b0.
Proof.
  intros n m. pose proof (byte_val_range b0).
  assert (m = n) as -> by (subst m n; sextets).
  apply to_byte_val; subst n; Z.div_mod_to_equations; lia.
Qed.

Lemma b64encode_nil_inv bs : b64encode bs = [] -> bs = [].
Proof. destruct bs as [|? [|? [|? ?]]]; simpl; done. Qed.

Lemma b64encode_three b0 b1 b2 rest :
  b64encode (b0 :: b1 :: b2 :: rest) =
    (let n := byte_val b0 * 65536 + byte_val b1 * 256 + byte_val b2 in
     [b64char (sextet n 18); b64char (sextet n 12);
      b64char (sextet n 6); b64char (sextet n 0)]) ++ b64encode rest.
Proof. reflexivity. Qed.

Lemma b64decode_group a b c d rest :
  b64decode (a :: b :: c :: d :: rest) =
    match rest with
    | [] => decode_last a b c d
    | _ :: _ =>
        match group_val a b c d, b64decode rest with
        | Some n, Some tl =>
            Some (to_byte (n / 65536) :: to_byte (n / 256) :: to_byte n :: tl)
        | _, _ => None
        end
    end.
Proof. reflexivity. Qed.

(** Decoding the encoding gives the bytes back. *)
Lemma b64decode_b64encode bs : b64decode (b64encode bs) = Some bs.
Proof.
  induction bs as [|b0|b0 b1|b0 b1 b2 rest IH] using list_ind3.
  - reflexivity.
  - cbn [b64encode]. rewrite b64decode_group. unfold decode_last.
    rewrite !decide_True by done.
    change "A"%char with (b64char 0).
    rewrite group_val_chars by (apply sextet_range || lia).
    by rewrite decode_one.
  - cbn [b64encode]. rewrite b64decode_group. unfold decode_last.
    rewrite decide_True by done.
    rewrite decide_False by apply b64char_not_pad.
    change "A"%char with (b64char 0).
    rewrite group_val_chars by (apply sextet_range || lia).
    destruct (decode_two b0 b1) as [-> ->]. reflexivity.
  - rewrite b64encode_three. cbv zeta. cbn [app].
    rewrite b64decode_group, group_val_sextets.
    destruct (decode_three b0 b1 b2) as (H0 & H1 & H2).
    destruct (b64encode rest) as [|x enc] eqn:E.
    + apply b64encode_nil_inv in E as ->.
      unfold decode_last. rewrite decide_False by apply b64char_not_pad.
      rewrite group_val_sextets. by rewrite H0, H1, H2.
    + rewrite IH. by rewrite H0, H1, H2.
Qed.

(** Different bytes give different keys. *)
Lemma b64encode_inj bs bs' : b64encode bs = b64encode bs' -> bs = bs'.
Proof.
  intros H. apply (f_equal b64decode) in H.
  rewrite !b64decode_b64encode in H. congruence.
Qed.

(** Four characters for every three bytes, the last group filled up. *)
Lemma b64encode_length bs :
  length (b64encode bs) = (4 * ((length bs + 2) / 3))%nat.
Proof.
  induction bs as [|b0|b0 b1|b0 b1 b2 rest IH] using list_ind3;
    [reflexivity..|].
  rewrite b64encode_three. cbv zeta. rewrite length_app, IH.
  cbn [length].
  replace (S (S (S (length rest))) + 2)%nat
    with (length rest + 2 + 1 * 3)%nat by lia.
  rewrite Nat.div_add by lia. lia.
Qed.

Lemma b64encode_chars bs c :
  c ∈ b64encode bs -> c ∈ alphabet \/ c = pad.
Proof.
  induction bs as [|b0|b0 b1|b0 b1 b2 rest IH] using list_ind3.
  - intros H. by apply elem_of_nil in H.
  - cbn [b64encode]. rewrite !elem_of_cons, elem_of_nil.
    intros [->|[->|[->|[->|[]]]]]; auto using b64char_alphabet.
  - cbn [b64encode]. rewrite !elem_of_cons, elem_of_nil.
    intros [->|[->|[->|[->|[]]]]]; auto using b64char_alphabet.
  - rewrite b64encode_three. cbv zeta. rewrite elem_of_app.
    rewrite !elem_of_cons, elem_of_nil.
    intros [[->|[->|[->|[->|[]]]]]|H]; auto using b64char_alphabet.
Qed.

Lemma b64encode_no_underscore bs : "_"%char ∉ b64encode bs.
Proof.
  intros H. apply b64encode_chars in H as [H|H]; [|done].
  revert H. by_eval.
Qed.

(** A length that is not a multiple of three leaves a padded last group. *)
Lemma b64encode_last_pad bs :
  (length bs mod 3 <> 0)%nat -> last (b64encode bs) = Some pad.
Proof.
  induction bs as [|b0|b0 b1|b0 b1 b2 rest IH] using list_ind3; intros Hm.
  - done.
  - reflexivity.
  - reflexivity.
  - rewrite b64encode_three. cbv zeta. rewrite last_app, IH; [done|].
    cbn [length] in Hm.
    replace (S (S (S (length rest)))) with (length rest + 1 * 3)%nat in Hm
      by lia.
    by rewrite Nat.Div0.mod_add in Hm.
Qed.

Lemma b64encode_padded_key bs :
  (length bs mod 3 <> 0)%nat -> padded_key (b64encode bs).
Proof.
  intros Hm. split; [apply b64encode_no_underscore|by apply b64encode_last_pad].
Qed.

(** The padding characters: none, two or one, by the length modulo three. *)
Lemma b64encode_count_pad bs :
  Str.count pad (b64encode bs) = ((3 - length bs mod 3) mod 3)%nat.
Proof.
  induction bs as [|b0|b0 b1|b0 b1 b2 rest IH] using list_ind3.
  - reflexivity.
  - cbn [b64encode Str.count].
    rewrite !(decide_False (P := b64char _ = pad)) by apply b64char_not_pad.
    reflexivity.
  - cbn [b64encode Str.count].
    rewrite !(decide_False (P := b64char _ = pad)) by apply b64char_not_pad.
    reflexivity.
  - rewrite b64encode_three. cbv zeta. cbn [app Str.count].
    rewrite !(decide_False (P := b64char _ = pad)) by apply b64char_not_pad.
    rewrite IH. cbn [length].
    replace (S (S (S (length rest)))) with (length rest + 1 * 3)%nat by lia.
    by rewrite Nat.Div0.mod_add.
Qed.

End Base64Facts.

(** ** Paths *)

Section PathFacts.

Import PosixPath.

Implicit Types (c f t : str) (cs ds : list str).

Lemma render_app cs ds : render (cs ++ ds) = render cs ++ render ds.
Proof. unfold render. apply flat_map_app. Qed.

Lemma render_snoc cs c : render (cs ++ [c]) = render cs ++ sep :: c.
Proof. rewrite render_app. unfold render. simpl. by rewrite app_nil_r. Qed.

Lemma rfind_absent (x : ascii) (s : str) i :
  x ∉ s -> Str.rfind_from x i s = -1.
Proof.
  revert i. induction s as [|y s IH]; intros i Hx; [done|].
  apply not_elem_of_cons in Hx as [Hxy Hx]. simpl.
  rewrite IH by done. simpl. by rewrite decide_False by done.
Qed.

(** The last separator of [u/f] is the one before [f]. *)
Lemma rfind_last (x : ascii) (u f : str) i :
  0 <= i -> x ∉ f ->
  Str.rfind_from x i (u ++ x :: f) = i + Z.of_nat (length u).
Proof.
  revert i. induction u as [|y u IH]; intros i Hi Hx.
  - simpl. rewrite rfind_absent by done. simpl.
    rewrite decide_True by done. lia.
  - simpl. rewrite IH by (done || lia).
    destruct (Z.leb_spec 0 (i + 1 + Z.of_nat (length u))); lia.
Qed.

Lemma name_last c : is_name c -> exists c' x, c = c' ++ [x] /\ x <> sep.
Proof.
  intros [Hne Hsep]. destruct c as [|x c' _] using rev_ind; [done|].
  exists c', x. split; [done|]. intros ->. apply Hsep.
  apply elem_of_app. right. apply elem_of_cons. by left.
Qed.

(** A rendered path with at least one name ends in a character of it. *)
Lemma render_last cs c :
  is_name c -> exists u x, render (cs ++ [c]) = u ++ [x] /\ x <> sep.
Proof.
  intros Hc. destruct (name_last c Hc) as (c' & x & -> & Hx).
  exists (render cs ++ sep :: c'), x. split; [|done].
  rewrite render_snoc. by rewrite <- app_assoc.
Qed.

Lemma rstrip_after (u : str) (x : ascii) :
  x <> sep -> Str.rstrip sep ((u ++ [x]) ++ [sep]) = u ++ [x].
Proof.
  intros Hx. unfold Str.rstrip.
  rewrite !rev_app_distr. simpl.
  rewrite decide_False by done.
  simpl. rewrite rev_involutive. reflexivity.
Qed.

Lemma dirname_split (u f : str) :
  sep ∉ f ->
  dirname (u ++ sep :: f) =
    if negb (bool_decide (u ++ [sep] = replicate (length (u ++ [sep])) sep))
    then Str.rstrip sep (u ++ [sep])
    else u ++ [sep].
Proof.
  intros Hf. unfold dirname, Str.rfind, Str.slice_to.
  rewrite rfind_last by (done || lia).
  replace (Z.to_nat (0 + Z.of_nat (length u) + 1)) with (length (u ++ [sep]))
    by (rewrite length_app; simpl; lia).
  replace (u ++ sep :: f) with ((u ++ [sep]) ++ f) by (by rewrite <- app_assoc).
  rewrite take_app_length.
  rewrite (bool_decide_eq_false_2 (u ++ [sep] = [])) by (by destruct u).
  reflexivity.
Qed.

(** The directory of a file in the root directory is the root. *)
Lemma dirname_root f : sep ∉ f -> dirname (render [f]) = [sep].
Proof.
  intros Hf. unfold render. simpl. rewrite app_nil_r.
  apply (dirname_split [] f Hf).
Qed.

(** The directory of [/c1/.../cn/c/f] is [/c1/.../cn/c]. *)
Lemma dirname_render cs c f :
  is_name c -> sep ∉ f ->
  dirname (render (cs ++ [c; f])) = render (cs ++ [c]).
Proof.
  intros Hc Hf.
  replace (cs ++ [c; f]) with ((cs ++ [c]) ++ [f]) by (by rewrite <- app_assoc).
  rewrite (render_snoc (cs ++ [c]) f).
  destruct (render_last cs c Hc) as (u & x & -> & Hx).
  rewrite dirname_split by done.
  rewrite bool_decide_eq_false_2.
  - simpl. by apply rstrip_after.
  - intros Heq.
    assert (x ∈ replicate (length ((u ++ [x]) ++ [sep])) sep) as Hin.
    { rewrite <- Heq. rewrite !elem_of_app, !elem_of_cons. auto. }
    apply elem_of_replicate in Hin as [-> _]. done.
Qed.

Lemma join_root (b : str) :
  startswith_sep b = false -> join [sep] b = sep :: b.
Proof.
  intros Hb. unfold join. rewrite Hb. reflexivity.
Qed.

Lemma join_render cs c (b : str) :
  is_name c -> startswith_sep b = false ->
  join (render (cs ++ [c])) b = render (cs ++ [c]) ++ sep :: b.
Proof.
  intros Hc Hb. unfold join. rewrite Hb.
  destruct (render_last cs c Hc) as (u & x & -> & Hx).
  rewrite (bool_decide_eq_false_2 (u ++ [x] = [])) by (by destruct u).
  unfold endswith_sep. rewrite last_snoc.
  by rewrite bool_decide_eq_false_2 by done.
Qed.

Lemma dot_env_name : is_name dot_env.
Proof. split; [discriminate|by_eval]. Qed.

(** From the script [/d1/.../dn/t/f] the path of line 21 is
    [/d1/.../dn/.env]. *)
Lemma env_path_of_render ds t f :
  Forall is_name ds -> is_name t -> is_name f ->
  env_path_of (render (ds ++ [t; f])) = render (ds ++ [dot_env]).
Proof.
  intros Hds Ht [_ Hf]. unfold env_path_of.
  rewrite dirname_render by done.
  destruct ds as [|d ds _] using rev_ind.
  - rewrite !app_nil_l. rewrite dirname_root by apply Ht.
    rewrite join_root by reflexivity. reflexivity.
  - apply Forall_app in Hds as [_ Hd]. apply Forall_inv in Hd.
    rewrite <- app_assoc. cbn [app].
    rewrite dirname_render by (done || apply Ht).
    rewrite join_render by done.
    by rewrite <- render_snoc.
Qed.

End PathFacts.

(** ** What a call does, case by case *)

Section Cases.

Variables (L : Z) (w : world).

Lemma run_cases :
  (L < 0 /\ generate_encryption_key L w = (Raise ValueError, w))
  \/ (0 <= L /\ fs w !! env_path w = None /\
      generate_encryption_key L w =
        (Ok (key_of L w),
         after w L (fs w) (key_prints L w ++ [EvExists (env_path w)])))
  \/ (exists raw,
      0 <= L /\ fs w !! env_path w = Some raw /\ decodes w raw = true /\
      Str.contains placeholder (Str.universal_newlines raw) = false /\
      generate_encryption_key L w =
        (Ok (key_of L w),
         after w L (fs w)
           (key_prints L w ++ [EvExists (env_path w); EvRead (env_path w)])))
  \/ (exists raw,
      0 <= L /\ fs w !! env_path w = Some raw /\ decodes w raw = true /\
      Str.contains placeholder (Str.universal_newlines raw) = true /\
      generate_encryption_key L w =
        (Ok (key_of L w),
         after w L (<[env_path w := patched_text (key_of L w) raw]> (fs w))
           (key_prints L w ++
            [EvExists (env_path w); EvRead (env_path w);
             EvWrite (env_path w) (patched_text (key_of L w) raw);
             EvPrint msg_updated])))
  \/ (exists raw,
      0 <= L /\ fs w !! env_path w = Some raw /\ decodes w raw = false /\
      generate_encryption_key L w =
        (Raise UnicodeDecodeError,
         after w L (fs w)
           (key_prints L w ++ [EvExists (env_path w); EvRead (env_path w)]))).
Proof.
  destruct (Z.lt_ge_cases L 0) as [HL|HL].
  { left. split; [done|]. by apply run_negative. }
  right. destruct (fs w !! env_path w) as [raw|] eqn:Hfs.
  - right. destruct (decodes w raw) eqn:Hd.
    + destruct (Str.contains placeholder (Str.universal_newlines raw)) eqn:Hc.
      * right. left. exists raw. repeat split; try done.
        by apply (run_patched L w raw).
      * left. exists raw. repeat split; try done.
        by apply (run_unpatched L w raw).
    + right. right. exists raw. repeat split; try done.
      by apply (run_undecodable L w raw).
  - left. repeat split; try done. by apply run_absent.
Qed.

(** A call with a length that is not negative returns the key. *)
Lemma returned_key :
  0 <= L -> env_decodable w = true -> returned L w = Ok (key_of L w).
Proof.
  intros HL Hdec. unfold returned. unfold env_decodable in Hdec.
  destruct run_cases as [[? _]|[(_ & _ & ->)|[(raw & _ & _ & _ & _ & ->)|
    [(raw & _ & _ & _ & _ & ->)|(raw & _ & Hfs & Hd & _)]]]]; [lia|done..|].
  rewrite Hfs in Hdec. congruence.
Qed.

Lemma drawn_length : length (drawn L w) = Z.to_nat L.
Proof. unfold drawn. by rewrite length_map, length_seq. Qed.

End Cases.

Lemma env_decodable_file (w : world) (raw : str) :
  fs w !! env_path w = Some raw -> decodes w raw = true ->
  env_decodable w = true.
Proof. intros Hfs Hd. unfold env_decodable. by rewrite Hfs. Qed.

Lemma env_decodable_absent (w : world) :
  fs w !! env_path w = None -> env_decodable w = true.
Proof. intros Hfs. unfold env_decodable. by rewrite Hfs. Qed.

Lemma placeholder_no_newline : (CR ∉ placeholder) /\ (LF ∉ placeholder).
Proof. split; by_eval. Qed.

(** The test of line 27 sees on the text what is in the file. *)
Lemma contains_placeholder_read raw :
  Str.contains placeholder (Str.universal_newlines raw)
  = Str.contains placeholder raw.
Proof.
  destruct placeholder_no_newline.
  by apply universal_newlines_contains; [apply placeholder_nonempty|..].
Qed.

(** Where the old text occurs, the replaced text has the new one. *)
Lemma contains_replace (old new : str) : forall (n : nat) (s : str),
  old <> [] -> (length s <= n)%nat -> Str.contains old s = true ->
  Str.contains new (Str.replace old new s) = true.
Proof.
  induction n as [|n IH]; intros s Hold Hlen Hc.
  - destruct s; [|simpl in Hlen; lia].
    simpl in Hc. destruct (decide (old `prefix_of` [])) as [Hp|]; [|done].
    apply prefix_nil_inv in Hp. congruence.
  - destruct (decide (old `prefix_of` s)) as [[k ->]|Hp].
    + rewrite replace_match by done. apply contains_occurs. by exists [], (Str.replace old new k).
    + destruct s as [|c s]; [apply (IH []); [done|simpl; lia|done]|].
      rewrite replace_skip by done.
      simpl in Hc. destruct (decide (old `prefix_of` c :: s)); [done|].
      apply (IH s) in Hc; [|done|simpl in Hlen; lia].
      apply contains_occurs in Hc as (a & b & Hab).
      apply contains_occurs. exists (c :: a), b. by rewrite Hab.
Qed.

Lemma length_mod3 (L : Z) (w : world) :
  0 <= L -> L mod 3 <> 0 -> (length (drawn L w) mod 3 <> 0)%nat.
Proof.
  intros HL Hm. rewrite drawn_length. intros H. apply Hm.
  rewrite <- (Z2Nat.id L) by done.
  change 3 with (Z.of_nat 3). rewrite <- Nat2Z.inj_mod. by rewrite H.
Qed.

(** From the script [/d1/.../dn/f] the path of line 21 is [.env] in the
    parent of [/d1/.../dn]; the parent of the root is the root. *)
Lemma env_path_of_parent (dir : list str) (f : str) :
  Forall is_name dir -> is_name f ->
  env_path_of (render (dir ++ [f])) = render (removelast dir ++ [dot_env]).
Proof.
  intros Hdir Hf. destruct dir as [|t ds _] using rev_ind.
  - destruct Hf as [_ Hf]. unfold env_path_of. rewrite app_nil_l.
    rewrite dirname_root by done.
    change (PosixPath.dirname [PosixPath.sep]) with [PosixPath.sep].
    by rewrite join_root.
  - apply Forall_app in Hdir as [Hds Ht]. apply Forall_inv in Ht.
    rewrite removelast_last, <- app_assoc. by apply env_path_of_render.
Qed.

(** * The properties of the specification *)

(** C1, as stated, fails: with three random bytes that encode to [repl] and a
    [.env] file that holds the placeholder followed by
    [ace_with_generated_key], the patched file is the placeholder itself. *)
Lemma placeholder_survives_patch :
  fs world_doubled !! env_path world_doubled = Some env_doubled /\
  Str.contains placeholder env_doubled = true /\
  returned 3 world_doubled = Ok (lit "repl") /\
  fs (final 3 world_doubled) !! env_path world_doubled = Some placeholder /\
  Str.contains placeholder placeholder = true.
Proof. repeat split; vm_compute; reflexivity. Qed.

(** A file with Windows line ends is not only patched: its line ends are
    rewritten too. *)
Lemma patch_rewrites_line_ends :
  let raw := placeholder ++ [CR; LF] in
  let w := test_world {[ test_env_path := raw ]} zero_source in
  fs (final 32 w) !! env_path w
    = Some (key_prefix ++ key_of 32 w ++ [LF]) /\
  Str.replace placeholder (key_prefix ++ key_of 32 w) raw
    = key_prefix ++ key_of 32 w ++ [CR; LF].
Proof. split; vm_compute; reflexivity. Qed.

(** C1 (amended).  When the call succeeds ([0 <= L], the file can be
    decoded) on a [.env] file that contains the placeholder, the file is
    overwritten with the text read from it (line ends as [\n]) in which
    every occurrence of the placeholder is replaced by [ENCRYPTION_KEY=] and
    the returned key, and no other file changes.  For a file without
    carriage returns that text is the old content with the occurrences
    replaced.  When [L] is not a multiple of three, as with the default 32,
    the placeholder no longer occurs in the file. *)
Theorem patched_env_content (L : Z) (w : world) (raw : str) :
  0 <= L ->
  fs w !! env_path w = Some raw ->
  decodes w raw = true ->
  Str.contains placeholder raw = true ->
  let key := key_of L w in
  let text :=
    Str.replace placeholder (key_prefix ++ key) (Str.universal_newlines raw) in
  returned L w = Ok key /\
  fs (final L w) = <[env_path w := text]> (fs w) /\
  (CR ∉ raw -> text = Str.replace placeholder (key_prefix ++ key) raw) /\
  (L mod 3 <> 0 -> Str.contains placeholder text = false).
Proof.
  intros HL Hfs Hd Hc key text.
  split; [apply returned_key; [done|by apply (env_decodable_file w raw)]|].
  rewrite <- contains_placeholder_read in Hc.
  unfold final. rewrite (run_patched L w raw HL Hfs Hd Hc). cbn [snd after fs].
  split; [reflexivity|]. split.
  - intros Hcr. subst text. by rewrite universal_newlines_id.
  - intros Hm. apply replace_removes_placeholder.
    apply b64encode_padded_key. by apply length_mod3.
Qed.

Lemma patched_env_content_witness :
  (0 <= 32 /\
   fs world_fresh !! env_path world_fresh = Some env_fresh /\
   decodes world_fresh env_fresh = true /\
   Str.contains placeholder env_fresh = true) /\
  returned 32 world_fresh = Ok (key_of 32 world_fresh) /\
  fs (final 32 world_fresh) !! test_env_path
    = Some (Str.replace placeholder (key_prefix ++ key_of 32 world_fresh)
              env_fresh) /\
  Str.contains placeholder
    (Str.replace placeholder (key_prefix ++ key_of 32 world_fresh)
       (Str.universal_newlines env_fresh)) = false.
Proof.
  assert (0 <= 32) as H0 by lia.
  assert (fs world_fresh !! env_path world_fresh = Some env_fresh) as H1
    by (vm_compute; reflexivity).
  assert (decodes world_fresh env_fresh = true) as Hd
    by (vm_compute; reflexivity).
  assert (Str.contains placeholder env_fresh = true) as H2
    by (vm_compute; reflexivity).
  destruct (patched_env_content 32 world_fresh env_fresh H0 H1 Hd H2)
    as (Hr & Hfs & Hraw & Hgone).
  split; [exact (conj H0 (conj H1 (conj Hd H2)))|]. split; [exact Hr|]. split.
  - rewrite Hfs. rewrite Hraw by by_eval.
    replace (env_path world_fresh) with test_env_path
      by (vm_compute; reflexivity).
    apply lookup_insert_eq.
  - apply Hgone. discriminate.
Defined.

(** C2.  When the [.env] file exists and its content does not contain the
    placeholder, the call leaves the file system as it was (the file byte
    for byte, and every other file) and writes to no file. *)
Theorem env_without_placeholder_untouched (L : Z) (w : world) (raw : str) :
  fs w !! env_path w = Some raw ->
  Str.contains placeholder raw = false ->
  fs (final L w) = fs w /\
  fs (final L w) !! env_path w = Some raw /\
  written (new_events w (final L w)) = [].
Proof.
  intros Hfs Hc. rewrite <- contains_placeholder_read in Hc.
  assert (fs (final L w) = fs w /\ written (new_events w (final L w)) = [])
    as [Hsame Hnone]; [|by rewrite Hsame].
  unfold final.
  destruct (run_cases L w) as [[_ ->]|[(_ & Hn & _)|[(raw' & _ & _ & _ & _ & ->)|
    [(raw' & _ & Hfs' & _ & Hc' & _)|(raw' & _ & _ & _ & ->)]]]];
    cbn [snd after fs].
  - split; [reflexivity|]. unfold new_events. by rewrite drop_all.
  - congruence.
  - split; [reflexivity|]. by rewrite new_events_after.
  - congruence.
  - split; [reflexivity|]. by rewrite new_events_after.
Qed.

Lemma env_without_placeholder_untouched_witness :
  (fs world_set !! env_path world_set = Some env_set /\
   Str.contains placeholder env_set = false) /\
  fs (final 32 world_set) = fs world_set /\
  fs (final 32 world_set) !! env_path world_set = Some env_set /\
  written (new_events world_set (final 32 world_set)) = [].
Proof.
  assert (fs world_set !! env_path world_set = Some env_set) as H1
    by (vm_compute; reflexivity).
  assert (Str.contains placeholder env_set = false) as H2
    by (vm_compute; reflexivity).
  split; [exact (conj H1 H2)|].
  exact (env_without_placeholder_untouched 32 world_set env_set H1 H2).
Defined.

(** C3.  When there is no [.env] file at the path, the call writes to no
    file, reads none and leaves the file system as it was; when it succeeds
    ([0 <= L]) it tests the path once, after the two lines, and returns the
    key. *)
Theorem no_env_no_write (L : Z) (w : world) :
  fs w !! env_path w = None ->
  fs (final L w) = fs w /\
  written (new_events w (final L w)) = [] /\
  (0 <= L ->
   returned L w = Ok (key_of L w) /\
   new_events w (final L w) = key_prints L w ++ [EvExists (env_path w)]).
Proof.
  intros Hfs. unfold final, returned.
  destruct (run_cases L w) as [[HL ->]|[(HL & _ & ->)|[(raw & _ & Hs & _)|
    [(raw & _ & Hs & _)|(raw & _ & Hs & _)]]]];
    cbn [fst snd after fs]; [| |congruence..].
  - split; [reflexivity|]. split; [unfold new_events; by rewrite drop_all|].
    lia.
  - rewrite new_events_after. repeat split; reflexivity.
Qed.

Lemma no_env_no_write_witness :
  fs world_bare !! env_path world_bare = None /\
  fs (final 32 world_bare) = fs world_bare /\
  written (new_events world_bare (final 32 world_bare)) = [] /\
  returned 32 world_bare = Ok (key_of 32 world_bare).
Proof.
  assert (fs world_bare !! env_path world_bare = None) as H1
    by (vm_compute; reflexivity).
  destruct (no_env_no_write 32 world_bare H1) as (Hfs & Hw & Hr).
  destruct Hr as [Hr _]; [lia|].
  exact (conj H1 (conj Hfs (conj Hw Hr))).
Defined.

(** C4.  For every length [L >= 1] a call that can read its [.env] file
    returns a key, and the key decodes, as padded base64, to exactly [L]
    bytes: the bytes that were drawn. *)
Theorem key_decodes_to_length (L : Z) (w : world) :
  1 <= L ->
  env_decodable w = true ->
  exists key bs,
    returned L w = Ok key /\
    Base64.b64decode key = Some bs /\
    Z.of_nat (length bs) = L /\
    bs = drawn L w.
Proof.
  intros HL Hdec. exists (key_of L w), (drawn L w).
  split; [apply returned_key; [lia|done]|].
  split; [apply b64decode_b64encode|].
  split; [rewrite drawn_length; lia|reflexivity].
Qed.

Lemma key_decodes_to_length_witness :
  (1 <= 5 /\ env_decodable world_doubled = true) /\
  exists key bs,
    returned 5 world_doubled = Ok key /\
    Base64.b64decode key = Some bs /\
    Z.of_nat (length bs) = 5 /\
    bs = drawn 5 world_doubled.
Proof.
  assert (1 <= 5) as H by lia.
  assert (env_decodable world_doubled = true) as Hd
    by (vm_compute; reflexivity).
  exact (conj (conj H Hd) (key_decodes_to_length 5 world_doubled H Hd)).
Defined.

(** C5.  For the length 32, the one the script itself passes, the key that
    a call returns when it can read its [.env] file has 44 characters, ends
    in [=], has no other [=], and decodes to 32 bytes. *)
Theorem default_key_shape (w : world) :
  env_decodable w = true ->
  exists key bs,
    returned 32 w = Ok key /\
    fst (main w) = Ok key /\
    length key = 44%nat /\
    last key = Some Base64.pad /\
    Str.count Base64.pad key = 1%nat /\
    Base64.b64decode key = Some bs /\
    length bs = 32%nat.
Proof.
  intros Hdec. exists (key_of 32 w), (drawn 32 w).
  assert (length (drawn 32 w) = 32%nat) as Hlen by apply drawn_length.
  split; [apply returned_key; [lia|done]|].
  split; [apply (returned_key 32 w); [lia|done]|].
  unfold key_of.
  split; [by rewrite b64encode_length, Hlen|].
  split; [apply b64encode_last_pad; by rewrite Hlen|].
  split; [by rewrite b64encode_count_pad, Hlen|].
  split; [apply b64decode_b64encode|exact Hlen].
Qed.

Lemma default_key_shape_witness :
  env_decodable world_fresh = true /\
  exists key bs,
    returned 32 world_fresh = Ok key /\
    fst (main world_fresh) = Ok key /\
    length key = 44%nat /\
    last key = Some Base64.pad /\
    Str.count Base64.pad key = 1%nat /\
    Base64.b64decode key = Some bs /\
    length bs = 32%nat.
Proof.
  assert (env_decodable world_fresh = true) as Hd
    by (vm_compute; reflexivity).
  exact (conj Hd (default_key_shape world_fresh Hd)).
Defined.

Lemma key_no_newline (L : Z) (w : world) : LF ∉ msg_generated ++ key_of L w.
Proof.
  intros H. apply elem_of_app in H as [H|H].
  - revert H. by_eval.
  - apply b64encode_chars in H as [H|H]; [revert H; by_eval|discriminate].
Qed.

(** C7.  A call with a length that is not negative prints the line with the
    key and the advice to store it, each of them one line, and after them
    the confirmation exactly when it wrote the file; it writes the file
    exactly when the file exists, can be decoded and its text contains the
    placeholder. *)
Theorem printed_lines (L : Z) (w : world) :
  0 <= L ->
  let evs := new_events w (final L w) in
  printed evs =
    [msg_generated ++ key_of L w; msg_store] ++
    match written evs with
    | [] => []
    | _ :: _ => [msg_updated]
    end /\
  Forall (fun line => LF ∉ line) (printed evs) /\
  (written evs <> [] <->
   exists raw, fs w !! env_path w = Some raw /\ decodes w raw = true /\
               Str.contains placeholder (Str.universal_newlines raw) = true).
Proof.
  intros HL evs. subst evs. unfold final.
  assert (LF ∉ msg_store) as Hstore by by_eval.
  assert (LF ∉ msg_updated) as Hupd by by_eval.
  pose proof (key_no_newline L w) as Hkey.
  destruct (run_cases L w) as [[HL' _]|[(_ & Hfs & ->)|
    [(raw & _ & Hfs & Hd & Hc & ->)|[(raw & _ & Hfs & Hd & Hc & ->)|
    (raw & _ & Hfs & Hd & ->)]]]]; [lia|..]; cbn [snd];
    rewrite new_events_after.
  - split; [reflexivity|]. split; [by repeat constructor|].
    split; [done|]. intros (raw & Hraw & _). congruence.
  - split; [reflexivity|]. split; [by repeat constructor|].
    split; [done|]. intros (raw' & Hraw & _ & Hc'). congruence.
  - split; [reflexivity|]. split; [by repeat constructor|].
    split; [|discriminate]. intros _. by exists raw.
  - split; [reflexivity|]. split; [by repeat constructor|].
    split; [done|]. intros (raw' & Hraw & Hd' & _). congruence.
Qed.

Lemma printed_lines_witness :
  0 <= 32 /\
  printed (new_events world_fresh (final 32 world_fresh))
  = [msg_generated ++ key_of 32 world_fresh; msg_store; msg_updated].
Proof.
  assert (0 <= 32) as H0 by lia.
  split; [exact H0|].
  destruct (printed_lines 32 world_fresh H0) as (Hp & _ & Hw).
  rewrite Hp.
  destruct (written (new_events world_fresh (final 32 world_fresh))) eqn:E.
  - exfalso. apply Hw; [|reflexivity]. exists env_fresh.
    repeat split; vm_compute; reflexivity.
  - reflexivity.
Defined.

(** C8.  On each of the three paths (no [.env] file, a file with the
    placeholder, a file without it; the file decodable) a call with a length
    that is not negative returns the base64 key.  That key is the one on the
    first printed line, and when the file is patched the [.env] file holds,
    after the call, a text that contains [ENCRYPTION_KEY=] followed by that
    key; otherwise the files are as before. *)
Theorem returned_key_is_shown (L : Z) (w : world) :
  0 <= L ->
  env_decodable w = true ->
  let key := Base64.b64encode (drawn L w) in
  let evs := new_events w (final L w) in
  returned L w = Ok key /\
  head (printed evs) = Some (msg_generated ++ key) /\
  match fs w !! env_path w with
  | None => fs (final L w) = fs w /\ written evs = []
  | Some raw =>
      if Str.contains placeholder raw
      then exists text,
             fs (final L w) !! env_path w = Some text /\
             written evs = [(env_path w, text)] /\
             Str.contains (key_prefix ++ key) text = true
      else fs (final L w) = fs w /\ written evs = []
  end.
Proof.
  intros HL Hdec key evs. subst key evs.
  split; [by apply returned_key|].
  fold (key_of L w). unfold final. unfold env_decodable in Hdec.
  destruct (run_cases L w) as [[HL' _]|[(_ & Hfs & ->)|
    [(raw & _ & Hfs & Hd & Hc & ->)|[(raw & _ & Hfs & Hd & Hc & ->)|
    (raw & _ & Hfs & Hd & _)]]]]; [lia|..]; cbn [snd after fs];
    rewrite ?new_events_after.
  - split; [reflexivity|]. by rewrite Hfs.
  - split; [reflexivity|]. rewrite Hfs.
    rewrite contains_placeholder_read in Hc. by rewrite Hc.
  - split; [reflexivity|]. rewrite Hfs.
    pose proof Hc as Hc'. rewrite contains_placeholder_read in Hc'.
    rewrite Hc'. exists (patched_text (key_of L w) raw).
    split; [apply lookup_insert_eq|]. split; [reflexivity|].
    unfold patched_text.
    apply (contains_replace _ _ (length (Str.universal_newlines raw)));
      [apply placeholder_nonempty|lia|exact Hc].
  - rewrite Hfs in Hdec. congruence.
Qed.

Lemma returned_key_is_shown_witness :
  (0 <= 32 /\ env_decodable world_fresh = true) /\
  returned 32 world_fresh = Ok (Base64.b64encode (drawn 32 world_fresh)) /\
  exists text,
    fs (final 32 world_fresh) !! env_path world_fresh = Some text /\
    Str.contains (key_prefix ++ Base64.b64encode (drawn 32 world_fresh)) text
    = true.
Proof.
  assert (0 <= 32) as H0 by lia.
  assert (env_decodable world_fresh = true) as Hd
    by (vm_compute; reflexivity).
  assert (fs world_fresh !! env_path world_fresh = Some env_fresh) as Hfs
    by (vm_compute; reflexivity).
  assert (Str.contains placeholder env_fresh = true) as Hc
    by (vm_compute; reflexivity).
  destruct (returned_key_is_shown 32 world_fresh H0 Hd) as (Hr & _ & Hfile).
  rewrite Hfs, Hc in Hfile. destruct Hfile as (text & Htext & _ & Hkey).
  split; [exact (conj H0 Hd)|]. split; [exact Hr|].
  exists text. exact (conj Htext Hkey).
Defined.

(** Two calls in a row draw consecutive, disjoint runs of the random source,
    and their keys are equal only if those runs are. *)
Lemma successive_keys (L : Z) (w : world) :
  0 <= L ->
  drawn L (final L w)
  = map (urandom w) (seq (consumed w + Z.to_nat L) (Z.to_nat L)) /\
  (key_of L (final L w) = key_of L w <-> drawn L (final L w) = drawn L w).
Proof.
  intros HL. split.
  - unfold final, drawn.
    destruct (run_cases L w) as [[HL' _]|[(_ & _ & ->)|
      [(raw & _ & _ & _ & _ & ->)|[(raw & _ & _ & _ & _ & ->)|
      (raw & _ & _ & _ & ->)]]]]; [lia|reflexivity..].
  - unfold key_of. split; [apply b64encode_inj|congruence].
Qed.

(** C10.  A call with the length 0 does not fail when it can read its
    [.env] file: it returns the empty string, prints the two lines, and
    tests and patches the [.env] file as for any other key. *)
Theorem zero_length_call (w : world) :
  env_decodable w = true ->
  returned 0 w = Ok [] /\
  final 0 w =
    match fs w !! env_path w with
    | None =>
        after w 0 (fs w)
          [EvPrint msg_generated; EvPrint msg_store; EvExists (env_path w)]
    | Some raw =>
        let text := Str.universal_newlines raw in
        if Str.contains placeholder text
        then
          after w 0
            (<[env_path w := Str.replace placeholder key_prefix text]> (fs w))
            [EvPrint msg_generated; EvPrint msg_store;
             EvExists (env_path w); EvRead (env_path w);
             EvWrite (env_path w) (Str.replace placeholder key_prefix text);
             EvPrint msg_updated]
        else
          after w 0 (fs w)
            [EvPrint msg_generated; EvPrint msg_store;
             EvExists (env_path w); EvRead (env_path w)]
    end.
Proof.
  intros Hdec. split; [by apply returned_key|].
  unfold final. unfold env_decodable in Hdec.
  destruct (fs w !! env_path w) as [raw|] eqn:Hfs.
  - cbv zeta.
    destruct (Str.contains placeholder (Str.universal_newlines raw)) eqn:Hc.
    + by rewrite (run_patched 0 w raw (Z.le_refl 0) Hfs Hdec Hc).
    + by rewrite (run_unpatched 0 w raw (Z.le_refl 0) Hfs Hdec Hc).
  - by rewrite (run_absent 0 w (Z.le_refl 0) Hfs).
Qed.

Lemma zero_length_call_witness :
  env_decodable world_bare = true /\
  returned 0 world_bare = Ok [] /\
  final 0 world_bare =
    after world_bare 0 (fs world_bare)
      [EvPrint msg_generated; EvPrint msg_store;
       EvExists (env_path world_bare)].
Proof.
  assert (env_decodable world_bare = true) as Hd
    by (vm_compute; reflexivity).
  assert (fs world_bare !! env_path world_bare = None) as Hfs
    by (vm_compute; reflexivity).
  destruct (zero_length_call world_bare Hd) as [Hr Hf].
  rewrite Hfs in Hf. exact (conj Hd (conj Hr Hf)).
Defined.

(** * Further properties of the script *)

(** ** Failure, frame and repeated calls *)

(** A call changes neither [__file__] nor the working directory, so the path
    it looks for stays the same from call to call. *)
Lemma env_path_final (L : Z) (w : world) : env_path (final L w) = env_path w.
Proof.
  unfold final.
  destruct (run_cases L w) as [[_ ->]|[(_ & _ & ->)|
    [(raw & _ & _ & _ & _ & ->)|[(raw & _ & _ & _ & _ & ->)|
    (raw & _ & _ & _ & ->)]]]]; reflexivity.
Qed.



(** X12.  When the [.env] file exists but its bytes cannot be decoded in the
    locale's encoding, a call with a length that is not negative fails with
    [UnicodeDecodeError] after it has printed the key and the advice; it
    writes nothing and leaves every file as it was. *)
Theorem undecodable_env_fails_after_printing (L : Z) (w : world) (raw : str) :
  0 <= L ->
  fs w !! env_path w = Some raw ->
  decodes w raw = false ->
  returned L w = Raise UnicodeDecodeError /\
  printed (new_events w (final L w))
  = [msg_generated ++ key_of L w; msg_store] /\
  written (new_events w (final L w)) = [] /\
  fs (final L w) = fs w.
Proof.
  intros HL Hfs Hd. unfold returned, final.
  rewrite (run_undecodable L w raw HL Hfs Hd). cbn [fst snd after fs].
  rewrite new_events_after. repeat split; reflexivity.
Qed.

Lemma undecodable_env_fails_after_printing_witness :
  (0 <= 32 /\
   fs world_latin1 !! env_path world_latin1 = Some env_latin1 /\
   decodes world_latin1 env_latin1 = false) /\
  returned 32 world_latin1 = Raise UnicodeDecodeError /\
  fs (final 32 world_latin1) = fs world_latin1.
Proof.
  assert (0 <= 32) as H0 by lia.
  assert (fs world_latin1 !! env_path world_latin1 = Some env_latin1) as H1
    by (vm_compute; reflexivity).
  assert (decodes world_latin1 env_latin1 = false) as H2
    by (vm_compute; reflexivity).
  destruct (undecodable_env_fails_after_printing 32 world_latin1 env_latin1
              H0 H1 H2) as (Hr & _ & _ & Hf).
  exact (conj (conj H0 (conj H1 H2)) (conj Hr Hf)).
Defined.

(** X2.  Whatever the length and the content of [.env], no file other than
    the one at the [.env] path is created, changed or removed. *)
Theorem other_files_untouched (L : Z) (w : world) (p : str) :
  p <> env_path w -> fs (final L w) !! p = fs w !! p.
Proof.
  intros Hp. unfold final.
  destruct (run_cases L w) as [[_ ->]|[(_ & _ & ->)|
    [(raw & _ & _ & _ & _ & ->)|[(raw & _ & _ & _ & _ & ->)|
    (raw & _ & _ & _ & ->)]]]]; cbn [snd after fs]; try reflexivity.
  by rewrite lookup_insert_ne.
Qed.

Lemma other_files_untouched_witness :
  test_config_path <> env_path world_two_files /\
  fs (final 32 world_two_files) !! test_config_path
  = fs world_two_files !! test_config_path.
Proof.
  assert (test_config_path <> env_path world_two_files) as H
    by (vm_compute; discriminate).
  exact (conj H (other_files_untouched 32 world_two_files test_config_path H)).
Defined.

(** X3.  After a call with a length that is not negative and not a multiple
    of three, a further call with any length writes nothing and leaves every
    file as it is: a [.env] file that the first call patched keeps the key
    of the first call. *)
Theorem second_call_writes_nothing (L L' : Z) (w : world) :
  0 <= L -> L mod 3 <> 0 ->
  fs (final L' (final L w)) = fs (final L w) /\
  written (new_events (final L w) (final L' (final L w))) = [].
Proof.
  intros HL Hm.
  pose proof (env_path_final L w) as Hpath.
  assert (forall raw', fs (final L w) !! env_path w = Some raw' ->
            decodes (final L w) raw' = true ->
            Str.contains placeholder (Str.universal_newlines raw') = false)
    as Hclean.
  { intros raw'. unfold final.
    destruct (run_cases L w) as [[? _]|[(_ & Hfs & ->)|
      [(raw & _ & Hfs & Hd & Hc & ->)|[(raw & _ & Hfs & Hd & Hc & ->)|
      (raw & _ & Hfs & Hd & ->)]]]]; [lia|..]; cbn [snd after fs decodes].
    - congruence.
    - congruence.
    - rewrite lookup_insert_eq. intros [= <-] _.
      rewrite contains_placeholder_read. unfold patched_text.
      apply replace_removes_placeholder, b64encode_padded_key.
      by apply length_mod3.
    - congruence. }
  revert Hpath Hclean. generalize (final L w). intros w1 Hpath Hclean.
  unfold final.
  destruct (run_cases L' w1) as [[_ ->]|[(_ & _ & ->)|
    [(raw & _ & _ & _ & _ & ->)|[(raw & _ & Hfs & Hd & Hc & _)|
    (raw & _ & _ & _ & ->)]]]]; cbn [snd after fs].
  - split; [reflexivity|]. unfold new_events. by rewrite drop_all.
  - split; [reflexivity|]. by rewrite new_events_after.
  - split; [reflexivity|]. by rewrite new_events_after.
  - rewrite Hpath in Hfs. apply Hclean in Hfs; [congruence|done].
  - split; [reflexivity|]. by rewrite new_events_after.
Qed.

Lemma second_call_writes_nothing_witness :
  (0 <= 32 /\ 32 mod 3 <> 0) /\
  fs (final 16 (final 32 world_fresh)) = fs (final 32 world_fresh) /\
  written (new_events (final 32 world_fresh) (final 16 (final 32 world_fresh)))
  = [].
Proof.
  assert (0 <= 32) as H0 by lia.
  assert (32 mod 3 <> 0) as H1 by discriminate.
  exact (conj (conj H0 H1) (second_call_writes_nothing 32 16 world_fresh H0 H1)).
Defined.

(** ** The key, for every length *)

(** X4.  For every length that is not negative the key that a call returns
    (when it can read its [.env] file) has four characters for every three
    bytes, the last group filled up; it consists of letters of the base64
    alphabet and [=] only (no blank, line break, quote or underscore), and
    the number of [=] is 0, 2 or 1 as the length leaves the remainder 0, 1
    or 2 modulo three. *)
Theorem key_shape (L : Z) (w : world) :
  0 <= L ->
  env_decodable w = true ->
  exists key,
    returned L w = Ok key /\
    length key = (4 * ((Z.to_nat L + 2) / 3))%nat /\
    Str.count Base64.pad key = ((3 - Z.to_nat L mod 3) mod 3)%nat /\
    Forall (fun c => c ∈ Base64.alphabet \/ c = Base64.pad) key.
Proof.
  intros HL Hdec. exists (key_of L w). split; [by apply returned_key|].
  unfold key_of.
  rewrite b64encode_length, b64encode_count_pad, drawn_length.
  split; [reflexivity|]. split; [reflexivity|].
  apply Forall_forall. intros c Hc. by apply (b64encode_chars (drawn L w)).
Qed.

Lemma key_shape_witness :
  (0 <= 16 /\ env_decodable world_fresh = true) /\
  exists key,
    returned 16 world_fresh = Ok key /\
    length key = 24%nat /\
    Str.count Base64.pad key = 2%nat /\
    Forall (fun c => c ∈ Base64.alphabet \/ c = Base64.pad) key.
Proof.
  assert (0 <= 16) as H0 by lia.
  assert (env_decodable world_fresh = true) as Hd
    by (vm_compute; reflexivity).
  exact (conj (conj H0 Hd) (key_shape 16 world_fresh H0 Hd)).
Defined.

(** X5.  The key is an injective function of the random bytes: two calls
    with the same length, in any two environments in which the [.env] file
    can be read, return the same key exactly when they drew the same
    bytes. *)
Theorem key_determined_by_bytes (L : Z) (w w' : world) :
  0 <= L ->
  env_decodable w = true ->
  env_decodable w' = true ->
  returned L w = returned L w' <-> drawn L w = drawn L w'.
Proof.
  intros HL Hd Hd'. rewrite !returned_key by done. unfold key_of. split.
  - intros [= H]. by apply b64encode_inj.
  - congruence.
Qed.

Lemma key_determined_by_bytes_witness :
  (0 <= 3 /\ env_decodable world_doubled = true /\
   env_decodable world_fresh = true) /\
  (returned 3 world_doubled = returned 3 world_fresh
   <-> drawn 3 world_doubled = drawn 3 world_fresh).
Proof.
  assert (0 <= 3) as H0 by lia.
  assert (env_decodable world_doubled = true) as H1
    by (vm_compute; reflexivity).
  assert (env_decodable world_fresh = true) as H2
    by (vm_compute; reflexivity).
  exact (conj (conj H0 (conj H1 H2))
           (key_determined_by_bytes 3 world_doubled world_fresh H0 H1 H2)).
Defined.

(** ** What a patch keeps and what it changes *)

(** No proper end of the placeholder is a beginning of it: occurrences of the
    placeholder cannot overlap. *)
Lemma placeholder_border_free (a r : str) :
  placeholder = a ++ r -> a <> [] -> r <> [] -> ~ r `prefix_of` placeholder.
Proof.
  intros H Ha Hr Hp.
  assert (r = drop (length a) placeholder) as Hd
    by (by rewrite H, drop_app_length).
  assert (length a + length r = 41)%nat as Hlen.
  { rewrite <- length_app, <- H. reflexivity. }
  assert (length a <> 0%nat) by (destruct a; simpl; [done|lia]).
  assert (length r <> 0%nat) by (destruct r; simpl; [done|lia]).
  assert (1 <= length a <= 40)%nat as Hk by lia.
  rewrite Hd in Hp. clear Hd Hlen H H0 H1 Ha Hr.
  revert Hk Hp. generalize (length a). clear a r. intros k Hk.
  destruct k as [|k]; [lia|].
  do 40 (destruct k as [|k]; [by_eval|]). lia.
Qed.

(** Where the text before an occurrence has none, no occurrence starts in
    it. *)
Lemma placeholder_not_early (a s : str) :
  a <> [] -> Str.contains placeholder a = false ->
  ~ placeholder `prefix_of` a ++ placeholder ++ s.
Proof.
  intros Ha Hc Hp.
  assert (~ placeholder `prefix_of` a) as Hna.
  { intros [k Hk]. apply (proj1 (contains_absent placeholder a) Hc [] k).
    by rewrite Hk. }
  destruct (prefix_weak_total placeholder a (a ++ placeholder ++ s))
    as [H|[r Hr]]; [done|by apply prefix_app_r|done|].
  assert (a ++ r `prefix_of` a ++ placeholder ++ s) as Hp'
    by (by rewrite <- Hr).
  apply prefix_app_inv in Hp'.
  assert (r <> []) as Hrne.
  { intros ->. rewrite app_nil_r in Hr. apply Hna. by rewrite Hr. }
  apply (placeholder_border_free a r Hr Ha Hrne).
  destruct (prefix_weak_total r placeholder (placeholder ++ s)) as [H|H];
    [done|by apply prefix_app_r|done|].
  apply prefix_length in H. apply (f_equal length) in Hr.
  rewrite length_app in Hr. destruct a; simpl in *; [done|lia].
Qed.

(** The text before the first occurrence is kept as it is. *)
Lemma replace_first (new a s : str) :
  Str.contains placeholder a = false ->
  Str.replace placeholder new (a ++ placeholder ++ s)
  = a ++ new ++ Str.replace placeholder new s.
Proof.
  induction a as [|c a IH]; intros Hc.
  - rewrite !app_nil_l. apply replace_match, placeholder_nonempty.
  - assert (Str.contains placeholder a = false) as Hc'.
    { cbn [Str.contains] in Hc.
      by destruct (decide (placeholder `prefix_of` c :: a)). }
    rewrite <- !app_comm_cons. rewrite replace_skip.
    + f_equal. by apply IH.
    + apply placeholder_nonempty.
    + rewrite app_comm_cons. by apply placeholder_not_early.
Qed.

(** Reading a text goes through a cut that is not inside a [\r\n]. *)
Lemma universal_newlines_app : forall (n : nat) (a s : str),
  (length a <= n)%nat -> head s <> Some LF ->
  Str.universal_newlines (a ++ s)
  = Str.universal_newlines a ++ Str.universal_newlines s.
Proof.
  induction n as [|n IH]; intros a s Hlen Hs.
  - destruct a; [done|simpl in Hlen; lia].
  - destruct a as [|c a]; [done|]. simpl in Hlen.
    rewrite <- app_comm_cons. cbn [Str.universal_newlines].
    destruct (decide (c = CR)) as [->|Hc].
    + destruct a as [|d a].
      * rewrite app_nil_l. destruct s as [|d s]; [done|].
        destruct (decide (d = LF)) as [->|Hd]; [done|]. reflexivity.
      * rewrite <- app_comm_cons.
        destruct (decide (d = LF)) as [->|Hd].
        -- rewrite <- app_comm_cons. f_equal. apply IH; [simpl in Hlen; lia|done].
        -- rewrite <- app_comm_cons. f_equal. rewrite app_comm_cons.
           apply IH; [simpl in *; lia|done].
    + rewrite <- app_comm_cons. f_equal. apply IH; [lia|done].
Qed.

Lemma universal_newlines_placeholder (s : str) :
  Str.universal_newlines (placeholder ++ s)
  = placeholder ++ Str.universal_newlines s.
Proof.
  assert (forall p : str, CR ∉ p ->
    Str.universal_newlines (p ++ s) = p ++ Str.universal_newlines s) as H.
  { induction p as [|c p IH]; intros Hp; [done|].
    apply not_elem_of_cons in Hp as [Hc Hp].
    rewrite <- !app_comm_cons. cbn [Str.universal_newlines].
    rewrite decide_False by done. f_equal. by apply IH. }
  apply H. apply placeholder_no_newline.
Qed.

(** X6.  When the [.env] file can be decoded and holds the placeholder once,
    between the texts [a] and [b], a call with a length that is not negative
    rewrites the file to [a], then [ENCRYPTION_KEY=] and the returned key,
    then [b]: nothing else in the file changes, apart from the line ends of
    [a] and [b], which are read as [\n]. *)
Theorem single_placeholder_patch (L : Z) (w : world) (a b : str) :
  0 <= L ->
  fs w !! env_path w = Some (a ++ placeholder ++ b) ->
  decodes w (a ++ placeholder ++ b) = true ->
  Str.contains placeholder a = false ->
  Str.contains placeholder b = false ->
  fs (final L w) !! env_path w
  = Some (Str.universal_newlines a ++ key_prefix ++ key_of L w
          ++ Str.universal_newlines b).
Proof.
  intros HL Hfs Hd Ha Hb.
  assert (Str.universal_newlines (a ++ placeholder ++ b)
          = Str.universal_newlines a ++ placeholder ++ Str.universal_newlines b)
    as Hread.
  { rewrite (universal_newlines_app (length a)); [|lia|discriminate].
    by rewrite universal_newlines_placeholder. }
  rewrite <- contains_placeholder_read in Ha, Hb.
  assert (Str.contains placeholder
            (Str.universal_newlines (a ++ placeholder ++ b)) = true) as Hc.
  { rewrite Hread. apply contains_occurs. by eexists _, _. }
  unfold final. rewrite (run_patched L w _ HL Hfs Hd Hc). cbn [snd after fs].
  rewrite lookup_insert_eq. f_equal. unfold patched_text.
  rewrite Hread, replace_first by done.
  rewrite replace_absent by (done || apply placeholder_nonempty).
  by rewrite <- app_assoc.
Qed.

Lemma single_placeholder_patch_witness :
  (0 <= 32 /\
   fs world_fresh !! env_path world_fresh
   = Some ((lit "BOT_TOKEN=123:abc" ++ [LF]) ++ placeholder ++ [LF]) /\
   decodes world_fresh
     ((lit "BOT_TOKEN=123:abc" ++ [LF]) ++ placeholder ++ [LF]) = true /\
   Str.contains placeholder (lit "BOT_TOKEN=123:abc" ++ [LF]) = false /\
   Str.contains placeholder [LF] = false) /\
  fs (final 32 world_fresh) !! env_path world_fresh
  = Some (Str.universal_newlines (lit "BOT_TOKEN=123:abc" ++ [LF])
          ++ key_prefix ++ key_of 32 world_fresh
          ++ Str.universal_newlines [LF]).
Proof.
  assert (0 <= 32) as H0 by lia.
  assert (fs world_fresh !! env_path world_fresh
          = Some ((lit "BOT_TOKEN=123:abc" ++ [LF]) ++ placeholder ++ [LF]))
    as H1 by (vm_compute; reflexivity).
  assert (decodes world_fresh
            ((lit "BOT_TOKEN=123:abc" ++ [LF]) ++ placeholder ++ [LF]) = true)
    as Hd by (vm_compute; reflexivity).
  assert (Str.contains placeholder (lit "BOT_TOKEN=123:abc" ++ [LF]) = false)
    as H2 by (vm_compute; reflexivity).
  assert (Str.contains placeholder [LF] = false) as H3
    by (vm_compute; reflexivity).
  exact (conj (conj H0 (conj H1 (conj Hd (conj H2 H3))))
           (single_placeholder_patch 32 world_fresh _ _ H0 H1 Hd H2 H3)).
Defined.

Lemma universal_newlines_no_cr : forall (n : nat) (raw : str),
  (length raw <= n)%nat -> CR ∉ Str.universal_newlines raw.
Proof.
  induction n as [|n IH]; intros raw Hlen.
  - destruct raw; [apply not_elem_of_nil|simpl in Hlen; lia].
  - destruct raw as [|c raw]; [apply not_elem_of_nil|]. simpl in Hlen.
    cbn [Str.universal_newlines].
    destruct (decide (c = CR)) as [->|Hc].
    + apply not_elem_of_cons. split; [discriminate|].
      destruct raw as [|d raw]; [apply not_elem_of_nil|].
      destruct (decide (d = LF)); apply IH; simpl in *; lia.
    + apply not_elem_of_cons. split; [congruence|]. apply IH. lia.
Qed.

(** Replacement brings in no character that neither text has. *)
Lemma replace_no_new_char (c : ascii) (old new : str) : forall (n : nat) (s : str),
  old <> [] -> (length s <= n)%nat -> c ∉ s -> c ∉ new ->
  c ∉ Str.replace old new s.
Proof.
  induction n as [|n IH]; intros s Hold Hlen Hs Hnew.
  - destruct s; [|simpl in Hlen; lia]. by rewrite replace_nil.
  - destruct (decide (old `prefix_of` s)) as [[k ->]|Hp].
    + rewrite replace_match by done.
      apply not_elem_of_app in Hs as [_ Hk].
      apply not_elem_of_app. split; [done|].
      apply IH; [done| |done..].
      rewrite length_app in Hlen. destruct old; simpl in *; [done|lia].
    + destruct s as [|x s]; [by rewrite replace_nil|].
      rewrite replace_skip by done.
      apply not_elem_of_cons in Hs as [Hx Hs].
      apply not_elem_of_cons. split; [done|].
      apply IH; [done|simpl in Hlen; lia|done..].
Qed.

(** X7.  A file that a call patches has no carriage return afterwards: the
    text is read with every [\r\n] and [\r] as [\n] and written back with
    the key, which has none. *)
Theorem patched_file_has_no_cr (L : Z) (w : world) (raw : str) :
  0 <= L ->
  fs w !! env_path w = Some raw ->
  decodes w raw = true ->
  Str.contains placeholder raw = true ->
  exists text, fs (final L w) !! env_path w = Some text /\ CR ∉ text.
Proof.
  intros HL Hfs Hd Hc. rewrite <- contains_placeholder_read in Hc.
  exists (patched_text (key_of L w) raw). split.
  - unfold final. rewrite (run_patched L w raw HL Hfs Hd Hc).
    cbn [snd after fs]. apply lookup_insert_eq.
  - unfold patched_text.
    apply (replace_no_new_char _ _ _ (length (Str.universal_newlines raw)));
      [apply placeholder_nonempty|lia| |].
    + by apply (universal_newlines_no_cr (length raw)).
    + intros H. apply elem_of_app in H as [H|H]; [revert H; by_eval|].
      apply b64encode_chars in H as [H|H]; [revert H; by_eval|discriminate].
Qed.

Lemma patched_file_has_no_cr_witness :
  (0 <= 32 /\
   fs world_fresh !! env_path world_fresh = Some env_fresh /\
   decodes world_fresh env_fresh = true /\
   Str.contains placeholder env_fresh = true) /\
  exists text,
    fs (final 32 world_fresh) !! env_path world_fresh = Some text /\
    CR ∉ text.
Proof.
  assert (0 <= 32) as H0 by lia.
  assert (fs world_fresh !! env_path world_fresh = Some env_fresh) as H1
    by (vm_compute; reflexivity).
  assert (decodes world_fresh env_fresh = true) as Hd
    by (vm_compute; reflexivity).
  assert (Str.contains placeholder env_fresh = true) as H2
    by (vm_compute; reflexivity).
  exact (conj (conj H0 (conj H1 (conj Hd H2)))
           (patched_file_has_no_cr 32 world_fresh env_fresh H0 H1 Hd H2)).
Defined.

(** ** Where the script is and where it looks *)

Section ScriptPath.

Import PosixPath.

Implicit Types (c f : str) (cs ns dir : list str).

Lemma plain_names_are_names cs : Forall is_plain_name cs -> Forall is_name cs.
Proof.
  intros H. eapply Forall_impl; [exact H|]. by intros c [Hc _].
Qed.

Lemma split_name c (s w : str) (ws : list str) :
  sep ∉ c -> Str.split sep s = w :: ws ->
  Str.split sep (c ++ s) = (c ++ w) :: ws.
Proof.
  intros Hc Hs. induction c as [|x c IH]; [done|].
  apply not_elem_of_cons in Hc as [Hx Hc].
  rewrite <- app_comm_cons. cbn [Str.split].
  rewrite decide_False by congruence. by rewrite IH.
Qed.

(** The components of [/c1/.../cn] are the empty one before the first
    separator and the names. *)
Lemma split_render cs :
  Forall is_name cs -> Str.split sep (render cs) = [] :: cs.
Proof.
  induction cs as [|c cs IH]; intros Hcs; [done|].
  apply Forall_cons in Hcs as [[_ Hc] Hcs].
  change (render (c :: cs)) with (sep :: c ++ render cs).
  cbn [Str.split]. rewrite decide_True by done. f_equal.
  rewrite (split_name c (render cs) [] cs Hc (IH Hcs)).
  by rewrite app_nil_r.
Qed.

Lemma normpath_step_plain (k : nat) (acc : list str) c :
  is_plain_name c -> normpath_step k acc c = acc ++ [c].
Proof.
  intros ((Hne & _) & Hdot & Hdots). unfold normpath_step.
  rewrite (bool_decide_eq_false_2 (c = [])) by done.
  rewrite (bool_decide_eq_false_2 (c = lit ".")) by done.
  rewrite (bool_decide_eq_false_2 (c = lit "..")) by done.
  reflexivity.
Qed.

Lemma normpath_fold_plain (k : nat) cs : forall acc,
  Forall is_plain_name cs ->
  fold_left (normpath_step k) cs acc = acc ++ cs.
Proof.
  induction cs as [|c cs IH]; intros acc Hcs.
  - by rewrite app_nil_r.
  - apply Forall_cons in Hcs as [Hc Hcs]. cbn [fold_left].
    rewrite normpath_step_plain by done. rewrite IH by done.
    by rewrite <- app_assoc.
Qed.

Lemma join_render_names cs :
  cs <> [] -> sep :: Str.join [sep] cs = render cs.
Proof.
  induction cs as [|c cs IH]; intros Hne; [done|].
  change (render (c :: cs)) with (sep :: c ++ render cs).
  destruct cs as [|d cs].
  - cbn [Str.join]. unfold render. cbn [flat_map]. by rewrite app_nil_r.
  - cbn [Str.join]. cbn [Str.join] in IH. rewrite <- IH by done. reflexivity.
Qed.

(** [normpath] leaves a path in normal form as it is. *)
Lemma normpath_render cs :
  cs <> [] -> Forall is_plain_name cs -> normpath (render cs) = render cs.
Proof.
  intros Hne Hcs.
  assert (Str.join [sep]
            (fold_left (normpath_step 1) (Str.split sep (render cs)) [])
          = Str.join [sep] cs) as Hcomps.
  { rewrite split_render by by apply plain_names_are_names.
    cbn [fold_left].
    change (normpath_step 1 [] []) with (@nil str).
    by rewrite normpath_fold_plain. }
  destruct cs as [|c cs]; [done|].
  pose proof (Forall_inv Hcs) as ((Hcne & Hsep) & _).
  destruct c as [|x c]; [done|].
  apply not_elem_of_cons in Hsep as [Hx _].
  rewrite <- (join_render_names (( x :: c) :: cs)) at 2 by done.
  revert Hcomps.
  change (render ((x :: c) :: cs)) with (sep :: x :: c ++ render cs).
  generalize (c ++ render cs). intros rest Hcomps.
  unfold normpath.
  destruct rest as [|y rest].
  - rewrite (bool_decide_eq_true_2 (sep = sep)) by done.
    rewrite (bool_decide_eq_false_2 (x = sep)) by congruence.
    rewrite Hcomps. reflexivity.
  - rewrite (bool_decide_eq_true_2 (sep = sep)) by done.
    rewrite (bool_decide_eq_false_2 (x = sep)) by congruence.
    cbn [andb]. rewrite Hcomps. reflexivity.
Qed.

Lemma render_starts_with_sep cs : cs <> [] -> startswith_sep (render cs) = true.
Proof. destruct cs; [done|]. intros _. reflexivity. Qed.

Lemma relative_no_sep ns :
  ns <> [] -> Forall is_name ns -> startswith_sep (render_relative ns) = false.
Proof.
  intros Hne Hns. destruct ns as [|c ns]; [done|].
  apply Forall_cons in Hns as [[Hc Hsep] _].
  destruct c as [|x c]; [done|].
  apply not_elem_of_cons in Hsep as [Hx _].
  unfold render_relative. destruct ns; cbn [Str.join app startswith_sep];
    by rewrite bool_decide_eq_false_2 by congruence.
Qed.

(** X8.  When [__file__] is the absolute path [/d1/.../dn/f] in normal form
    (no [.] or [..] among the names), the script looks for [.env] in the
    parent directory of [/d1/.../dn], whatever the working directory is. *)
Theorem env_path_of_absolute_script (w : world) (dir : list str) (f : str) :
  Forall is_plain_name (dir ++ [f]) ->
  script_file w = render (dir ++ [f]) ->
  env_path w = render (removelast dir ++ [dot_env]).
Proof.
  intros Hnames Hfile. unfold env_path, abspath. rewrite Hfile.
  rewrite render_starts_with_sep by (by destruct dir).
  rewrite normpath_render by (done || by destruct dir).
  apply plain_names_are_names in Hnames.
  apply Forall_app in Hnames as [Hdir Hf]. apply Forall_inv in Hf.
  by apply env_path_of_parent.
Qed.

Lemma env_path_of_absolute_script_witness :
  (Forall is_plain_name
     ([lit "srv"; lit "bot"; lit "tools"] ++ [lit "generate_key.py"]) /\
   script_file world_fresh
   = render ([lit "srv"; lit "bot"; lit "tools"] ++ [lit "generate_key.py"])) /\
  env_path world_fresh = render [lit "srv"; lit "bot"; lit ".env"].
Proof.
  assert (forall c, c <> [] -> bool_decide (sep ∉ c) = true ->
            c <> lit "." -> c <> lit ".." -> is_plain_name c) as Hname.
  { intros c Hc Hs H1 H2. split; [|done]. split; [exact Hc|].
    apply (bool_decide_unpack _). rewrite Hs. exact I. }
  assert (Forall is_plain_name
            ([lit "srv"; lit "bot"; lit "tools"] ++ [lit "generate_key.py"]))
    as H1.
  { repeat constructor; apply Hname;
      (discriminate || (vm_compute; reflexivity)). }
  assert (script_file world_fresh
          = render ([lit "srv"; lit "bot"; lit "tools"]
                    ++ [lit "generate_key.py"])) as H2
    by (vm_compute; reflexivity).
  exact (conj (conj H1 H2) (env_path_of_absolute_script world_fresh _ _ H1 H2)).
Defined.

(** X9.  When [__file__] is the relative path [e1/.../em/f] and the working
    directory is [/c1/.../cn] (both without [.] and [..]), the script looks
    for [.env] in the parent directory of [/c1/.../cn/e1/.../em]. *)
Theorem env_path_of_relative_script (w : world) (cs ns : list str) (f : str) :
  cs <> [] ->
  Forall is_plain_name (cs ++ ns ++ [f]) ->
  cwd w = render cs ->
  script_file w = render_relative (ns ++ [f]) ->
  env_path w = render (removelast (cs ++ ns) ++ [dot_env]).
Proof.
  intros Hcs Hnames Hcwd Hfile.
  assert (Forall is_name (cs ++ ns ++ [f])) as Hn
    by (by apply plain_names_are_names).
  pose proof Hn as Hn'.
  apply Forall_app in Hn' as [Hncs Hnns].
  assert (abspath (cwd w) (script_file w) = render ((cs ++ ns) ++ [f])) as Habs.
  { unfold abspath. rewrite Hfile, Hcwd.
    rewrite relative_no_sep by (done || by destruct ns).
    destruct cs as [|c0 cs0 _] using rev_ind; [done|].
    apply Forall_app in Hncs as [_ Hc0]. apply Forall_inv in Hc0.
    rewrite join_render by (done || (apply relative_no_sep; [by destruct ns|done])).
    unfold render_relative. rewrite join_render_names by (by destruct ns).
    rewrite <- render_app, <- !app_assoc.
    apply normpath_render; [by destruct cs0|].
    by rewrite <- !app_assoc in Hnames. }
  unfold env_path. rewrite Habs.
  apply env_path_of_parent.
  - rewrite app_assoc in Hn. by apply Forall_app in Hn as [Hn _].
  - rewrite app_assoc in Hn. apply Forall_app in Hn as [_ Hf].
    by apply Forall_inv in Hf.
Qed.

Lemma env_path_of_relative_script_witness :
  ([lit "srv"; lit "bot"] <> [] /\
   Forall is_plain_name
     ([lit "srv"; lit "bot"] ++ [lit "tools"] ++ [lit "generate_key.py"]) /\
   cwd world_relative = render [lit "srv"; lit "bot"] /\
   script_file world_relative
   = render_relative ([lit "tools"] ++ [lit "generate_key.py"])) /\
  env_path world_relative = render [lit "srv"; lit "bot"; lit ".env"].
Proof.
  assert (forall c, c <> [] -> bool_decide (sep ∉ c) = true ->
            c <> lit "." -> c <> lit ".." -> is_plain_name c) as Hname.
  { intros c Hc Hs H1 H2. split; [|done]. split; [exact Hc|].
    apply (bool_decide_unpack _). rewrite Hs. exact I. }
  assert ([lit "srv"; lit "bot"] <> []) as H0 by discriminate.
  assert (Forall is_plain_name
            ([lit "srv"; lit "bot"] ++ [lit "tools"]
             ++ [lit "generate_key.py"])) as H1.
  { repeat constructor; apply Hname;
      (discriminate || (vm_compute; reflexivity)). }
  assert (cwd world_relative = render [lit "srv"; lit "bot"]) as H2
    by (vm_compute; reflexivity).
  assert (script_file world_relative
          = render_relative ([lit "tools"] ++ [lit "generate_key.py"])) as H3
    by (vm_compute; reflexivity).
  exact (conj (conj H0 (conj H1 (conj H2 H3)))
           (env_path_of_relative_script world_relative _ _ _ H0 H1 H2 H3)).
Defined.

End ScriptPath.






(** ** The path and the file accesses, for every script location *)

Lemma lstrip_suffix (c : ascii) (t : str) : exists k, t = k ++ Str.lstrip c t.
Proof.
  induction t as [|x t [k IH]]; [by exists []|]. cbn [Str.lstrip].
  destruct (decide (x = c)).
  - exists (x :: k). by rewrite <- app_comm_cons, <- IH.
  - by exists [].
Qed.

Lemma rstrip_prefix (c : ascii) (s : str) : Str.rstrip c s `prefix_of` s.
Proof.
  unfold Str.rstrip. destruct (lstrip_suffix c (rev s)) as [k Hk].
  exists (rev k). rewrite <- rev_app_distr, <- Hk. by rewrite rev_involutive.
Qed.

(** The directory of a path is a beginning of the path. *)
Lemma dirname_prefix (p : str) : PosixPath.dirname p `prefix_of` p.
Proof.
  unfold PosixPath.dirname, Str.slice_to.
  set (head := take _ p).
  assert (head `prefix_of` p) as Hhead by apply prefix_take.
  destruct (_ && _); [|done].
  etrans; [apply rstrip_prefix|done].
Qed.

Lemma last_separator (c : ascii) (p : str) :
  c ∉ p \/ exists u t, p = u ++ c :: t /\ c ∉ t.
Proof.
  induction p as [|x p [IH|(u & t & -> & Ht)]].
  - left. apply not_elem_of_nil.
  - destruct (decide (x = c)) as [->|Hx].
    + right. by exists [], p.
    + left. by apply not_elem_of_cons.
  - right. by exists (x :: u), t.
Qed.

(** The slice of [dirname]: everything up to the last separator. *)
Lemma dirname_head (p : str) :
  exists t,
    p = Str.slice_to (Str.rfind PosixPath.sep p + 1) p ++ t /\
    (PosixPath.sep ∉ t) /\
    (Str.slice_to (Str.rfind PosixPath.sep p + 1) p = [] \/
     last (Str.slice_to (Str.rfind PosixPath.sep p + 1) p)
     = Some PosixPath.sep).
Proof.
  unfold Str.rfind, Str.slice_to.
  destruct (last_separator PosixPath.sep p) as [Hp|(u & t & -> & Ht)].
  - rewrite rfind_absent by done. exists p. by repeat split; [|left].
  - rewrite rfind_last by (done || lia).
    replace (Z.to_nat (0 + Z.of_nat (length u) + 1))
      with (length (u ++ [PosixPath.sep]))
      by (rewrite length_app; simpl; lia).
    replace (u ++ PosixPath.sep :: t) with ((u ++ [PosixPath.sep]) ++ t)
      by (by rewrite <- app_assoc).
    rewrite take_app_length. exists t. repeat split; [done|].
    right. apply last_snoc.
Qed.

Lemma lstrip_run (c : ascii) (t : str) :
  exists k, t = replicate k c ++ Str.lstrip c t /\
            head (Str.lstrip c t) <> Some c.
Proof.
  induction t as [|x t (k & IH & Hh)]; [by exists 0%nat|].
  cbn [Str.lstrip]. destruct (decide (x = c)) as [->|Hx].
  - exists (S k). split; [|done]. cbn [replicate app]. by rewrite <- IH.
  - exists 0%nat. split; [done|]. cbn [head]. congruence.
Qed.

Lemma rev_replicate (k : nat) (c : ascii) : rev (replicate k c) = replicate k c.
Proof.
  induction k as [|k IH]; [done|].
  cbn [replicate rev]. rewrite IH. symmetry. apply replicate_cons_app.
Qed.

Lemma last_rev (l : str) : last (rev l) = head l.
Proof. destruct l as [|x l]; [done|]. cbn [rev head]. apply last_snoc. Qed.

(** [rstrip] takes a run of the character from the end and stops at
    another one. *)
Lemma rstrip_run (c : ascii) (s : str) :
  exists k, s = Str.rstrip c s ++ replicate k c /\
            last (Str.rstrip c s) <> Some c.
Proof.
  unfold Str.rstrip. destruct (lstrip_run c (rev s)) as (k & Hk & Hh).
  exists k. split.
  - rewrite <- (rev_involutive s) at 1. rewrite Hk at 1.
    by rewrite rev_app_distr, rev_replicate.
  - by rewrite last_rev.
Qed.

(** [dirname] gives the directory part of every path. *)
Lemma dirname_dir_of (p : str) : dir_of p (PosixPath.dirname p).
Proof.
  unfold PosixPath.dirname.
  destruct (dirname_head p) as (t & Hp & Ht & Hlast).
  set (hd := Str.slice_to (Str.rfind PosixPath.sep p + 1) p) in *.
  destruct (bool_decide (hd = [])) eqn:E1; cbn [negb andb].
  { apply bool_decide_eq_true in E1. exists 0%nat, t.
    repeat split; [done..|]. left. by rewrite E1. }
  apply bool_decide_eq_false in E1.
  destruct (bool_decide (hd = replicate (length hd) PosixPath.sep)) eqn:E2;
    cbn [negb].
  { apply bool_decide_eq_true in E2. exists 0%nat, t.
    repeat split; [done..|]. by left. }
  apply bool_decide_eq_false in E2.
  destruct Hlast as [?|Hlast]; [done|].
  destruct (rstrip_run PosixPath.sep hd) as (k & Hk & Hl).
  exists k, t. split; [|split; [done|right]].
  - rewrite Hp at 1. rewrite Hk at 1. by rewrite <- app_assoc.
  - split; [|split; [done|]].
    + intros Hnil. rewrite Hnil, app_nil_l in Hk. apply E2.
      rewrite Hk at 1. by rewrite Hk, length_replicate.
    + destruct k as [|k]; [|lia]. exfalso. apply Hl.
      rewrite app_nil_r in Hk. by rewrite <- Hk.
Qed.

Lemma last_replicate (k : nat) (c : ascii) (l : str) :
  l <> [] -> l = replicate k c -> last l = Some c.
Proof.
  intros Hne ->. destruct k as [|k]; [done|].
  rewrite replicate_S_end. apply last_snoc.
Qed.

(** A prefix of a run of [c] that is not empty ends in [c]. *)
Lemma last_in_run (k : nat) (c : ascii) (m rest : str) :
  m <> [] -> m ++ rest = replicate k c -> last m = Some c.
Proof.
  intros Hne Hrun. destruct (last m) as [y|] eqn:E.
  - f_equal. apply last_Some_elem_of in E.
    apply (elem_of_replicate_inv y k c). rewrite <- Hrun.
    apply elem_of_app. by left.
  - by apply last_None in E.
Qed.

Lemma last_app_nonempty (h m : str) : m <> [] -> last (h ++ m) = last m.
Proof.
  intros Hm. rewrite last_app. destruct (last m) eqn:E; [done|].
  by apply last_None in E.
Qed.

(** A path is cut in one way only into a beginning that is empty or ends in
    a separator and a rest without separators. *)
Lemma head_unique (h t h' t' : str) :
  h ++ t = h' ++ t' ->
  PosixPath.sep ∉ t -> PosixPath.sep ∉ t' ->
  h = [] \/ last h = Some PosixPath.sep ->
  h' = [] \/ last h' = Some PosixPath.sep ->
  h = h'.
Proof.
  assert (forall h t h' t' m : str,
    h = h' ++ m -> t' = m ++ t -> PosixPath.sep ∉ t' ->
    h = [] \/ last h = Some PosixPath.sep -> h = h') as Hside.
  { intros h0 t0 h0' t0' m -> -> Ht' Hh. destruct m as [|x m] using rev_ind.
    - by rewrite app_nil_r.
    - exfalso. clear IHm. destruct Hh as [Hh|Hh].
      + apply app_eq_nil in Hh as [_ Hh]. by destruct m.
      + rewrite app_assoc, last_snoc in Hh. injection Hh as ->.
        apply Ht'. rewrite !elem_of_app, elem_of_cons. auto. }
  intros Heq Ht Ht' Hh Hh'.
  apply app_eq_inv in Heq as [(m & H1 & H2)|(m & H1 & H2)].
  - by apply (Hside h t h' t' m).
  - symmetry. by apply (Hside h' t' h t m).
Qed.

(** A path has one directory part. *)
Lemma dir_of_unique (p d d' : str) : dir_of p d -> dir_of p d' -> d = d'.
Proof.
  assert (forall (d : str) (k : nat),
    (d = replicate (length d) PosixPath.sep /\ k = 0%nat)
    \/ (d <> [] /\ last d <> Some PosixPath.sep /\ (1 <= k)%nat) ->
    d ++ replicate k PosixPath.sep = []
    \/ last (d ++ replicate k PosixPath.sep) = Some PosixPath.sep) as Hend.
  { intros d0 k0 [[Hd ->]|(Hne & _ & Hk)].
    - rewrite app_nil_r. destruct d0 as [|x d0]; [by left|right].
      by apply (last_replicate (length (x :: d0))).
    - right. rewrite last_app_nonempty by (destruct k0; [lia|done]).
      apply (last_replicate k0); [destruct k0; [lia|done]|done]. }
  assert (forall (d d' : str) (k' : nat),
    d = replicate (length d) PosixPath.sep ->
    d = d' ++ replicate k' PosixPath.sep ->
    d' <> [] -> last d' <> Some PosixPath.sep -> False) as Hmixed.
  { intros d0 d0' k0' Hall Heq Hne Hl. apply Hl.
    apply (last_in_run (length d0) PosixPath.sep d0'
             (replicate k0' PosixPath.sep)); [done|].
    by rewrite <- Heq. }
  intros (k & t & Hp & Ht & Hd) (k' & t' & Hp' & Ht' & Hd').
  assert (d ++ replicate k PosixPath.sep = d' ++ replicate k' PosixPath.sep)
    as Hh.
  { apply (head_unique _ t _ t'); [|done|done|by apply Hend..].
    rewrite <- !app_assoc. by rewrite <- Hp, <- Hp'. }
  destruct Hd as [[Hall ->]|(Hne & Hl & Hk)];
    destruct Hd' as [[Hall' ->]|(Hne' & Hl' & Hk')].
  - by rewrite !app_nil_r in Hh.
  - exfalso. rewrite app_nil_r in Hh. by apply (Hmixed d d' k').
  - exfalso. rewrite app_nil_r in Hh. by apply (Hmixed d' d k).
  - apply app_eq_inv in Hh as [(m & H1 & H2)|(m & H1 & H2)].
    + destruct m as [|x m _] using rev_ind; [by rewrite app_nil_r in H1|].
      exfalso. apply Hl.
      rewrite H1, app_assoc, last_snoc. f_equal.
      apply (elem_of_replicate_inv x k' PosixPath.sep). rewrite H2.
      rewrite !elem_of_app, elem_of_cons. auto.
    + destruct m as [|x m _] using rev_ind;
        [by rewrite app_nil_r in H1|].
      exfalso. apply Hl'.
      rewrite H1, app_assoc, last_snoc. f_equal.
      apply (elem_of_replicate_inv x k PosixPath.sep). rewrite H2.
      rewrite !elem_of_app, elem_of_cons. auto.
Qed.

(** X10.  Wherever the script is, with [A] its absolute path: [A] has one
    directory part [d1] and [d1] has one directory part [d] (so [d] is [A]
    without its last two components and the separators before them), and
    the path the script looks for is [.env] directly in [d]: the name
    follows [d] at once when [d] is empty or ends in a separator, and after
    one separator otherwise. *)
Theorem env_path_under_script_path (w : world) :
  exists d1 d,
    dir_of (PosixPath.abspath (cwd w) (script_file w)) d1 /\
    (forall d', dir_of (PosixPath.abspath (cwd w) (script_file w)) d' ->
                d' = d1) /\
    dir_of d1 d /\
    (forall d', dir_of d1 d' -> d' = d) /\
    env_path w =
      if bool_decide (d = []) || PosixPath.endswith_sep d
      then d ++ dot_env
      else d ++ PosixPath.sep :: dot_env.
Proof.
  exists (PosixPath.dirname (PosixPath.abspath (cwd w) (script_file w))),
    (PosixPath.dirname
       (PosixPath.dirname (PosixPath.abspath (cwd w) (script_file w)))).
  split; [apply dirname_dir_of|].
  split; [intros d' Hd'; apply (dir_of_unique _ _ _ Hd'), dirname_dir_of|].
  split; [apply dirname_dir_of|].
  split; [intros d' Hd'; apply (dir_of_unique _ _ _ Hd'), dirname_dir_of|].
  reflexivity.
Qed.

(** X11.  The file accesses of a call are, in this order and all on the
    [.env] path, at most one existence test, one read and one write: no file
    is read that was not tested, none is written that was not read. *)
Theorem file_access_order (L : Z) (w : world) :
  exists text,
    file_events (new_events w (final L w))
    `prefix_of` [EvExists (env_path w); EvRead (env_path w);
                 EvWrite (env_path w) text].
Proof.
  unfold final.
  destruct (run_cases L w) as [[_ ->]|[(_ & _ & ->)|
    [(raw & _ & _ & _ & _ & ->)|[(raw & _ & _ & _ & _ & ->)|
    (raw & _ & _ & _ & ->)]]]]; cbn [snd].
  - exists []. unfold new_events. rewrite drop_all. apply prefix_nil.
  - exists []. rewrite new_events_after. by eexists.
  - exists []. rewrite new_events_after. by eexists.
  - exists (patched_text (key_of L w) raw). rewrite new_events_after.
    by exists [].
  - exists []. rewrite new_events_after. by eexists.
Qed.
